(** * A shallow embedding of [app.py], the fruit-voting web service

    The service has three Flask routes: the home page ([hello]), the vote
    route ([vote_item]) and the listing route ([get_all]).  Votes are counters
    in a Redis store; every vote also posts a best-effort notification to the
    Telegram HTTP API ([send_telegram_notification]).

    Python code that talks to the outside world is embedded as a state and
    exception monad over a [World]: the contents of the Redis database, the
    commands sent to it, the HTTP posts attempted, and oracles that say which
    Redis command fails (before or after the server has run it), in which
    order the server names its keys, and what each HTTP post does.

    The connection check made when the module is loaded (a PING inside a
    [try] whose handler only prints) does not affect the routes and is left
    out, as are the metrics that the Prometheus exporter collects. *)

From Stdlib Require Import ZArith Ascii String DecimalString Decimal DecimalZ DecimalPos.
From stdpp Require Import gmap strings list fin_maps sorting.

Local Open Scope Z_scope.

(** ** Strings *)

Module Str.

(** The double-quote character, written by its decimal code. *)
Definition dquote : ascii := "034"%char.

(** The double quote as a string, to splice into literals. *)
Definition dq : string := String dquote EmptyString.

Fixpoint mem (c : ascii) (s : string) : bool :=
  match s with
  | EmptyString => false
  | String d s' => if Ascii.eqb c d then true else mem c s'
  end.

(** [strip_prefix p s] is [Some t] when [s = p +:+ t]. *)
Fixpoint strip_prefix (p s : string) : option string :=
  match p, s with
  | EmptyString, _ => Some s
  | String a p', String b s' => if Ascii.eqb a b then strip_prefix p' s' else None
  | String _ _, EmptyString => None
  end.

(** [contains s t]: the text [t] occurs verbatim inside [s]. *)
Definition contains (s t : string) : Prop :=
  exists before after, s = before +:+ t +:+ after.

(** The string with the given bytes. *)
Fixpoint of_bytes (bytes : list N) : string :=
  match bytes with
  | [] => EmptyString
  | b :: rest => String (ascii_of_N b) (of_bytes rest)
  end.

End Str.

(** ** Text and bytes

    The store holds byte strings; the client is created with
    [decode_responses=True], so every key and value it hands to the routes
    has been decoded as UTF-8 and the call raises [UnicodeDecodeError] when
    that fails.  A Python [str] is represented here by its UTF-8 encoding. *)

Module Utf8.

(** Where decoding stopped: the offending bytes are those at positions
    [err_start] to [err_end - 1]; [err_byte] is the first of them. *)
Record error : Type := mkError {
  err_start : nat;
  err_end : nat;
  err_byte : N;
  err_reason : string
}.

Definition is_continuation (b : N) : bool := ((128 <=? b) && (b <? 192))%N.

Definition invalid_start (pos : nat) (b : N) : error :=
  mkError pos (pos + 1) b "invalid start byte".

(** The lead byte [b] and [seen - 1] good continuation bytes, then a byte
    that cannot follow. *)
Definition invalid_continuation (pos seen : nat) (b : N) : error :=
  mkError pos (pos + seen) b "invalid continuation byte".

(** The data ends [seen] bytes into a longer sequence. *)
Definition unexpected_end (pos seen : nat) (b : N) : error :=
  mkError pos (pos + seen) b "unexpected end of data".

Definition and_then (cp : N) (rest : error + list N) : error + list N :=
  match rest with
  | inl e => inl e
  | inr cps => inr (cp :: cps)
  end.

(** The strict UTF-8 decoder: the code points of [s], whose first byte is at
    position [pos], or the first error.  Overlong forms, surrogates and
    values above U+10FFFF are errors. *)
Fixpoint decode (pos : nat) (s : string) : error + list N :=
  match s with
  | EmptyString => inr []
  | String c0 s1 =>
      let b0 := N_of_ascii c0 in
      if (b0 <? 128)%N then and_then b0 (decode (pos + 1) s1)
      else if (b0 <? 194)%N then inl (invalid_start pos b0)
      else if (b0 <? 224)%N then
        match s1 with
        | EmptyString => inl (unexpected_end pos 1 b0)
        | String c1 s2 =>
            let b1 := N_of_ascii c1 in
            if negb (is_continuation b1) then inl (invalid_continuation pos 1 b0)
            else and_then ((b0 - 192) * 64 + (b1 - 128))%N (decode (pos + 2) s2)
        end
      else if (b0 <? 240)%N then
        match s1 with
        | EmptyString => inl (unexpected_end pos 1 b0)
        | String c1 s2 =>
            let b1 := N_of_ascii c1 in
            if negb (is_continuation b1)
               || (if (b1 <? 160)%N then (b0 =? 224)%N else (b0 =? 237)%N)
            then inl (invalid_continuation pos 1 b0)
            else
              match s2 with
              | EmptyString => inl (unexpected_end pos 2 b0)
              | String c2 s3 =>
                  let b2 := N_of_ascii c2 in
                  if negb (is_continuation b2) then inl (invalid_continuation pos 2 b0)
                  else and_then ((b0 - 224) * 4096 + (b1 - 128) * 64 + (b2 - 128))%N
                         (decode (pos + 3) s3)
              end
        end
      else if (b0 <? 245)%N then
        match s1 with
        | EmptyString => inl (unexpected_end pos 1 b0)
        | String c1 s2 =>
            let b1 := N_of_ascii c1 in
            if negb (is_continuation b1)
               || (if (b1 <? 144)%N then (b0 =? 240)%N else (b0 =? 244)%N)
            then inl (invalid_continuation pos 1 b0)
            else
              match s2 with
              | EmptyString => inl (unexpected_end pos 2 b0)
              | String c2 s3 =>
                  let b2 := N_of_ascii c2 in
                  if negb (is_continuation b2) then inl (invalid_continuation pos 2 b0)
                  else
                    match s3 with
                    | EmptyString => inl (unexpected_end pos 3 b0)
                    | String c3 s4 =>
                        let b3 := N_of_ascii c3 in
                        if negb (is_continuation b3)
                        then inl (invalid_continuation pos 3 b0)
                        else and_then ((b0 - 240) * 262144 + (b1 - 128) * 4096
                                       + (b2 - 128) * 64 + (b3 - 128))%N
                               (decode (pos + 4) s4)
                    end
              end
        end
      else inl (invalid_start pos b0)
  end.

(** The bytes of the first [n] characters of [s]. *)
Fixpoint take (n : nat) (s : string) : string :=
  match s with
  | EmptyString => EmptyString
  | String c s' =>
      if is_continuation (N_of_ascii c) then String c (take n s')
      else match n with
           | O => EmptyString
           | S n' => String c (take n' s')
           end
  end.

End Utf8.

(** ** Python values, exceptions and the built-ins the routes use *)

(** The exception classes that can reach the handlers of [app.py].  Each
    carries the text that [str(error_detail)] yields.  All of them derive from
    [Exception], so both [except Exception] and the bare [except:] catch
    them. *)
Inductive PyException : Type :=
  | RedisConnectionError (msg : string)   (* redis.exceptions.ConnectionError *)
  | RedisTimeoutError (msg : string)      (* redis.exceptions.TimeoutError *)
  | RedisResponseError (msg : string)     (* redis.exceptions.ResponseError *)
  | RequestsException (msg : string)      (* requests.exceptions.RequestException *)
  | ValueError (msg : string)
  | TypeError (msg : string)
  | UnicodeDecodeError (msg : string)
  | OtherException (msg : string).

(** [str(error_detail)]. *)
Definition py_str_exc (e : PyException) : string :=
  match e with
  | RedisConnectionError msg | RedisTimeoutError msg | RedisResponseError msg
  | RequestsException msg | ValueError msg | TypeError msg
  | UnicodeDecodeError msg | OtherException msg => msg
  end.

(** The values that flow through [int(redis_client.get(key) or 0)]. *)
Inductive PyValue : Type :=
  | PyNone
  | PyStr (s : string)
  | PyInt (n : Z).

(** Truth value of an object: [None], the empty string and [0] are false. *)
Definition py_truthy (v : PyValue) : bool :=
  match v with
  | PyNone => false
  | PyStr s => negb (String.eqb s "")
  | PyInt n => negb (n =? 0)
  end.

(** [a or b]. *)
Definition py_or (a b : PyValue) : PyValue := if py_truthy a then a else b.

(** [str(n)] for an integer, also what an f-string prints for it: the
    decimal digits, with a leading minus sign for negatives. *)
Definition py_str_int (n : Z) : string := NilZero.string_of_int (Z.to_int n).

Module PyInt.

(** Whitespace that [int] skips around a literal: space, tab, line feed,
    vertical tab, form feed, carriage return. *)
Definition is_space (c : ascii) : bool :=
  match c with
  | " " | "009" | "010" | "011" | "012" | "013" => true
  | _ => false
  end%char.

Definition is_digit (c : ascii) : bool :=
  match c with
  | "0" | "1" | "2" | "3" | "4" | "5" | "6" | "7" | "8" | "9" => true
  | _ => false
  end%char.

Fixpoint lstrip (s : string) : string :=
  match s with
  | EmptyString => EmptyString
  | String c s' => if is_space c then lstrip s' else s
  end.

(** The longest prefix of digits and underscores, and what follows it. *)
Fixpoint span_body (s : string) : string * string :=
  match s with
  | EmptyString => (EmptyString, EmptyString)
  | String c s' =>
      if is_digit c || Ascii.eqb c "_"
      then let '(b, r) := span_body s' in (String c b, r)
      else (EmptyString, s)
  end.

(** The digits of a body, when its underscores are well placed: none in
    front, none at the end, never two in a row.  [prev] tells whether the
    previous character was a digit. *)
Fixpoint digits (body : string) (prev : bool) : option string :=
  match body with
  | EmptyString => if prev then Some EmptyString else None
  | String c b' =>
      if Ascii.eqb c "_"
      then (if prev then digits b' false else None)
      else String c <$> digits b' true
  end.

(** The characters above 126 that [int] takes for whitespace. *)
Definition unicode_space (ch : N) : bool :=
  ((ch =? 0x85) || (ch =? 0xA0) || (ch =? 0x1680)
   || ((0x2000 <=? ch) && (ch <=? 0x200A))
   || (ch =? 0x2028) || (ch =? 0x2029) || (ch =? 0x202F) || (ch =? 0x205F)
   || (ch =? 0x3000))%N.

(** The digit zero of every run of decimal digits (Unicode 14, the tables
    of CPython 3.11); the other nine digits follow their zero. *)
Definition decimal_zeros : list N :=
  [0x660; 0x6F0; 0x7C0; 0x966; 0x9E6; 0xA66; 0xAE6; 0xB66; 0xBE6; 0xC66;
   0xCE6; 0xD66; 0xDE6; 0xE50; 0xED0; 0xF20; 0x1040; 0x1090; 0x17E0; 0x1810;
   0x1946; 0x19D0; 0x1A80; 0x1A90; 0x1B50; 0x1BB0; 0x1C40; 0x1C50; 0xA620;
   0xA8D0; 0xA900; 0xA9D0; 0xA9F0; 0xAA50; 0xABF0; 0xFF10; 0x104A0; 0x10D30;
   0x11066; 0x110F0; 0x11136; 0x111D0; 0x112F0; 0x11450; 0x114D0; 0x11650;
   0x116C0; 0x11730; 0x118E0; 0x11950; 0x11C50; 0x11D50; 0x11DA0; 0x16A60;
   0x16AC0; 0x16B50; 0x1D7CE; 0x1D7D8; 0x1D7E2; 0x1D7EC; 0x1D7F6; 0x1E140;
   0x1E2F0; 0x1E950; 0x1FBF0]%N.

(** The value of a decimal digit above 126. *)
Definition unicode_decimal (ch : N) : option N :=
  match List.find (λ first, (first <=? ch) && (ch <=? first + 9))%N decimal_zeros with
  | Some first => Some (ch - first)%N
  | None => None
  end.

(** What [int] does to a string before it reads the literal: characters
    below 127 stay, other whitespace becomes a space, other decimal digits
    become ASCII digits, and the text is cut at the first character that is
    none of these, with a question mark in its place. *)
Fixpoint to_ascii (chars : list N) : string :=
  match chars with
  | [] => EmptyString
  | ch :: rest =>
      if (ch <? 127)%N then String (ascii_of_N ch) (to_ascii rest)
      else if unicode_space ch then String " " (to_ascii rest)
      else match unicode_decimal ch with
           | Some d => String (ascii_of_N (48 + d)) (to_ascii rest)
           | None => "?"
           end
  end.

(** [sys.int_max_str_digits], at its default. *)
Definition int_max_str_digits : nat := 4300.

(** The message shows at most 200 characters of the [repr]. *)
Definition invalid_literal (repr_s : string) : PyException :=
  ValueError ("invalid literal for int() with base 10: " +:+ Utf8.take 200 repr_s).

Definition exceeds_limit (ndigits : nat) : PyException :=
  ValueError ("Exceeds the limit (4300 digits) for integer string conversion: value has "
              +:+ py_str_int (Z.of_nat ndigits)
              +:+ " digits; use sys.set_int_max_str_digits() to increase the limit").

End PyInt.

(** [repr(s)] of a string: quoted with single quotes, or with double quotes
    when the text has a single quote and no double quote; backslash, the
    quote, and control characters are escaped.  Characters above 127 are
    kept as they are, as [repr] does with the printable ones. *)
Module PyRepr.

Definition hex_digit (n : N) : ascii :=
  match n with
  | 0 => "0" | 1 => "1" | 2 => "2" | 3 => "3" | 4 => "4" | 5 => "5"
  | 6 => "6" | 7 => "7" | 8 => "8" | 9 => "9" | 10 => "a" | 11 => "b"
  | 12 => "c" | 13 => "d" | 14 => "e" | _ => "f"
  end%char%N.

Definition escape (quote c : ascii) : string :=
  let n := N_of_ascii c in
  if Ascii.eqb c "\" then "\\"
  else if Ascii.eqb c quote then String "\" (String c "")
  else if Ascii.eqb c "009" then "\t"
  else if Ascii.eqb c "010" then "\n"
  else if Ascii.eqb c "013" then "\r"
  else if ((n <? 32) || (n =? 127))%N
       then String "\" (String "x" (String (hex_digit (n / 16)) (String (hex_digit (n mod 16)) "")))
  else String c "".

Fixpoint escape_all (quote : ascii) (s : string) : string :=
  match s with
  | EmptyString => EmptyString
  | String c s' => escape quote c +:+ escape_all quote s'
  end.

Definition repr (s : string) : string :=
  let quote : ascii :=
    if Str.mem "'" s && negb (Str.mem Str.dquote s) then Str.dquote else "'"%char in
  String quote (escape_all quote s) +:+ String quote "".

End PyRepr.

(** [int(s)] for a string, base 10.  The literal is an optional sign and
    decimal digits, with single underscores allowed between digits and
    whitespace allowed around the whole; digits and whitespace may be those
    of any script.  The result is the number, or the [ValueError] Python
    raises.  Bytes that are not the encoding of a string are no literal. *)
Definition py_int_of_str (s : string) : PyException + Z :=
  let bad := inl (PyInt.invalid_literal (PyRepr.repr s)) in
  match Utf8.decode 0 s with
  | inl _ => bad
  | inr chars =>
  let t := PyInt.lstrip (PyInt.to_ascii chars) in
  let '(negative, u) :=
    match t with
    | String "-" u => (true, u)
    | String "+" u => (false, u)
    | _ => (false, t)
    end in
  let '(body, rest) := PyInt.span_body u in
  match PyInt.digits body false with
  | None => bad
  | Some ds =>
      if decide (PyInt.int_max_str_digits < String.length ds)%nat
      then inl (PyInt.exceeds_limit (String.length ds))
      else
        match PyInt.lstrip rest, NilEmpty.uint_of_string ds with
        | EmptyString, Some d =>
            let n := Z.of_uint d in inr (if negative then - n else n)
        | _, _ => bad
        end
  end
  end.

(** [str(e)] for the [UnicodeDecodeError] of a failed decoding. *)
Definition unicode_decode_error (err : Utf8.error) : PyException :=
  let b := Utf8.err_byte err in
  UnicodeDecodeError
    ("'utf-8' codec can't decode "
     +:+ (if decide (Utf8.err_end err = S (Utf8.err_start err))
          then "byte 0x"
               +:+ String (PyRepr.hex_digit (b / 16)) (String (PyRepr.hex_digit (b mod 16)) "")
               +:+ " in position " +:+ py_str_int (Z.of_nat (Utf8.err_start err))
          else "bytes in position " +:+ py_str_int (Z.of_nat (Utf8.err_start err))
               +:+ "-" +:+ py_str_int (Z.of_nat (Utf8.err_end err) - 1))
     +:+ ": " +:+ Utf8.err_reason err).

(** [bytes.decode("utf-8")]: the bytes unchanged when they encode a string
    (a string is represented by its encoding). *)
Definition py_decode (bytes : string) : PyException + string :=
  match Utf8.decode 0 bytes with
  | inl err => inl (unicode_decode_error err)
  | inr _ => inr bytes
  end.

(** [int(v)]: integers are returned as they are, strings are parsed, [None]
    is a [TypeError]. *)
Definition py_int (v : PyValue) : PyException + Z :=
  match v with
  | PyInt n => inr n
  | PyStr s => py_int_of_str s
  | PyNone =>
      inl (TypeError "int() argument must be a string, a bytes-like object or a real number, not 'NoneType'")
  end.

(** ** The Redis server

    The store is not part of [app.py]; what follows is the behaviour of the
    three commands the routes send: INCR, KEYS with the pattern [*], and
    GET. *)

Inductive RedisValue : Type :=
  | RString (s : string)      (* a string value, what INCR and GET work on *)
  | RNotString.               (* a list, hash, set or other non-string value *)

Inductive RedisCommand : Type :=
  | INCR (key : string)
  | KEYS_all                  (* KEYS with the pattern that matches every key *)
  | GET (key : string).

Module Redis.

Definition LLONG_MAX : Z := 9223372036854775807.
Definition LLONG_MIN : Z := -9223372036854775808.

(** The server reads a stored string as a 64-bit signed integer only when
    it is the canonical decimal form of one: no spaces, no plus sign, no
    leading zeros, no minus zero. *)
Definition string2ll (s : string) : option Z :=
  d ← NilZero.int_of_string s;
  let n := Z.of_int d in
  if decide (py_str_int n = s ∧ LLONG_MIN ≤ n ≤ LLONG_MAX) then Some n else None.

Definition not_an_integer : PyException :=
  RedisResponseError "value is not an integer or out of range".
Definition would_overflow : PyException :=
  RedisResponseError "increment or decrement would overflow".
Definition wrong_type : PyException :=
  RedisResponseError "WRONGTYPE Operation against a key holding the wrong kind of value".

(** The integer a key stands for, as INCR reads it: a key that does not
    exist counts as 0. *)
Definition integer_at (db : gmap string RedisValue) (key : string) : PyException + Z :=
  match db !! key with
  | None => inr 0
  | Some (RString s) =>
      match string2ll s with
      | Some n => inr n
      | None => inl not_an_integer
      end
  | Some RNotString => inl wrong_type
  end.

(** INCR key: add one and store the result as a decimal string. *)
Definition incr (key : string) (db : gmap string RedisValue)
  : (PyException + Z) * gmap string RedisValue :=
  match integer_at db key with
  | inl e => (inl e, db)
  | inr n =>
      if decide (LLONG_MAX ≤ n) then (inl would_overflow, db)
      else (inr (n + 1), <[key := RString (py_str_int (n + 1))]> db)
  end.

Definition by_rank (rank : string → nat) (k1 k2 : string) : Prop :=
  (rank k1 ≤ rank k2)%nat.

Global Instance by_rank_dec (rank : string → nat) (k1 k2 : string) :
  Decision (by_rank rank k1 k2) := decide (rank k1 ≤ rank k2)%nat.

(** The name of every key, each once, in the order that [rank] gives
    them. *)
Definition key_names (rank : string → nat) (db : gmap string RedisValue) : list string :=
  merge_sort (by_rank rank) (map_to_list db).*1.

(** KEYS *: the name of every key.  The server promises no order: it is
    whatever [rank] makes it. *)
Definition keys_all (rank : string → nat) (db : gmap string RedisValue)
  : (PyException + list string) * gmap string RedisValue :=
  (inr (key_names rank db), db).

(** GET key: the bytes stored, or nothing for a key that does not exist. *)
Definition get (key : string) (db : gmap string RedisValue)
  : (PyException + PyValue) * gmap string RedisValue :=
  match db !! key with
  | None => (inr PyNone, db)
  | Some (RString s) => (inr (PyStr s), db)
  | Some RNotString => (inl wrong_type, db)
  end.

End Redis.

(** ** The world outside the process *)

(** One call of [requests.post(url, json=payload, timeout=...)]. *)
Record HttpPost : Type := mkHttpPost {
  post_url : string;
  post_chat_id : string;      (* payload["chat_id"] *)
  post_text : string;         (* payload["text"] *)
  post_timeout : Z
}.

(** What the network does with a post: some HTTP status comes back, or the
    call raises (connection error, timeout, bad URL, ...). *)
Inductive PostOutcome : Type :=
  | Responds (status : Z)
  | Fails (e : PyException).

(** How a command to the store can fail: on the way there, so that the
    server never sees it (unreachable, refused, timed out); or on the way
    back, after the server has run it (the reply is lost). *)
Inductive RedisFault : Type :=
  | NotDelivered (e : PyException)
  | ReplyLost (e : PyException).

Definition fault_error (f : RedisFault) : PyException :=
  match f with
  | NotDelivered e | ReplyLost e => e
  end.

Record World : Type := mkWorld {
  redis_db : gmap string RedisValue;
  (** every command sent so far, oldest first *)
  redis_log : list RedisCommand;
  (** [redis_faults i = Some f]: the [i]-th command sent fails as [f] says *)
  redis_faults : nat → option RedisFault;
  (** [redis_order i]: the rank by which the server orders its keys when
      the [i]-th command sent is a KEYS *)
  redis_order : nat → string → nat;
  (** every post attempted so far, oldest first *)
  http_log : list HttpPost;
  (** the outcome of the [i]-th post *)
  http_net : nat → PostOutcome
}.

(** ** Python computations: state over [World], with exceptions *)

Inductive Result (A : Type) : Type :=
  | Return (a : A)
  | Raise (e : PyException).
Arguments Return {A} a.
Arguments Raise {A} e.

Definition Py (A : Type) : Type := World → Result A * World.

Global Instance Py_ret : MRet Py := λ A a w, (Return a, w).

Global Instance Py_bind : MBind Py := λ A B k m w,
  match m w with
  | (Return a, w') => k a w'
  | (Raise e, w') => (Raise e, w')
  end.

(** [try: body  except ...: handler]; every modelled exception is caught. *)
Definition try_except {A} (body : Py A) (handler : PyException → Py A) : Py A :=
  λ w, match body w with
       | (Return a, w') => (Return a, w')
       | (Raise e, w') => handler e w'
       end.

Definition of_sum {A} (r : PyException + A) : Result A :=
  match r with
  | inl e => Raise e
  | inr a => Return a
  end.

(** Raise or return, without touching the world. *)
Definition lift_sum {A} (r : PyException + A) : Py A := λ w, (of_sum r, w).

(** Send one command through [redis_client].  The command is logged.  If
    it fails on the way the error is raised and the database is left alone;
    if its reply is lost the server has run it and the error is raised all
    the same; otherwise the server runs it and its reply comes back. *)
Definition redis_call {A} (cmd : RedisCommand)
    (exec : gmap string RedisValue → (PyException + A) * gmap string RedisValue) : Py A :=
  λ w,
    let sent := redis_log w ++ [cmd] in
    match redis_faults w (length (redis_log w)) with
    | Some (NotDelivered e) =>
        (Raise e,
         mkWorld (redis_db w) sent (redis_faults w) (redis_order w) (http_log w) (http_net w))
    | Some (ReplyLost e) =>
        (Raise e,
         mkWorld (exec (redis_db w)).2 sent (redis_faults w) (redis_order w)
           (http_log w) (http_net w))
    | None =>
        let '(r, db') := exec (redis_db w) in
        (of_sum r,
         mkWorld db' sent (redis_faults w) (redis_order w) (http_log w) (http_net w))
    end.

(** The client decodes the keys of a reply one after the other. *)
Fixpoint decode_keys (keys : list string) : PyException + list string :=
  match keys with
  | [] => inr []
  | key :: rest =>
      match py_decode key with
      | inl e => inl e
      | inr k =>
          match decode_keys rest with
          | inl e => inl e
          | inr ks => inr (k :: ks)
          end
      end
  end.

(** The client decodes the value of a reply, when there is one. *)
Definition decode_value (v : PyValue) : PyException + PyValue :=
  match v with
  | PyStr bytes =>
      match py_decode bytes with
      | inl e => inl e
      | inr s => inr (PyStr s)
      end
  | _ => inr v
  end.

(** [redis_client.incr(key)]: the reply is an integer. *)
Definition redis_client_incr (key : string) : Py Z :=
  redis_call (INCR key) (Redis.incr key).

(** [redis_client.keys('*')]. *)
Definition redis_client_keys_all : Py (list string) :=
  keys ← (λ w, redis_call KEYS_all
                 (Redis.keys_all (redis_order w (length (redis_log w)))) w);
  lift_sum (decode_keys keys).

(** [redis_client.get(key)]. *)
Definition redis_client_get (key : string) : Py PyValue :=
  v ← redis_call (GET key) (Redis.get key);
  lift_sum (decode_value v).

(** [requests.post(url, json=payload, timeout=timeout)]: the attempt is
    logged, and the network decides whether a response comes back (its status
    is returned, whatever it is) or the call raises. *)
Definition requests_post (url chat_id text : string) (timeout : Z) : Py Z :=
  λ w,
    let w' := mkWorld (redis_db w) (redis_log w) (redis_faults w) (redis_order w)
                (http_log w ++ [mkHttpPost url chat_id text timeout]) (http_net w) in
    match http_net w (length (http_log w)) with
    | Responds status => (Return status, w')
    | Fails e => (Raise e, w')
    end.

(** ** HTTP responses *)

(** What a view function hands back to Flask: a page, or the JSON object
    given to [jsonify].  The three JSON shapes are the three dictionaries
    the routes build. *)
Inductive Body : Type :=
  | Html (html_content : string)
  | JsonVote (status : string) (current_count : Z) (version : string)
  | JsonList (data : gmap string Z) (version : string)
  | JsonError (error : string)
  | NotFound.

Record Response : Type := mkResponse {
  body : Body;
  status_code : Z
}.

(** ** The application *)

Section App.

(** The environment variables of the process. *)
Variable environ : gmap string string.

(** [os.environ.get(key, default)]. *)
Definition os_environ_get (key default_value : string) : string :=
  default default_value (environ !! key).

Definition APP_VERSION : string := os_environ_get "APP_VERSION" "v1".
Definition TELEGRAM_TOKEN : string := os_environ_get "TELEGRAM_TOKEN" "".
Definition TELEGRAM_CHAT_ID : string := os_environ_get "TELEGRAM_CHAT_ID" "".
Definition redis_host_address : string := os_environ_get "REDIS_HOST" "localhost".

(** The text handed to Telegram for [message]. *)
Definition notification_text (message : string) : string :=
  "[" +:+ APP_VERSION +:+ "] " +:+ message.

Definition send_telegram_notification (message : string) : Py unit :=
  if py_truthy (PyStr TELEGRAM_TOKEN) && py_truthy (PyStr TELEGRAM_CHAT_ID) then
    let url := "https://api.telegram.org/bot" +:+ TELEGRAM_TOKEN +:+ "/sendMessage" in
    try_except
      (requests_post url TELEGRAM_CHAT_ID (notification_text message) 1;; mret tt)
      (λ _, mret tt)
  else mret tt.

(** The page of the home route, the f-string of [hello]. *)
Definition html_content : string :=
  "
    <!DOCTYPE html>
    <html>
    <head>
        <title>DevOps 投票中心 - " +:+ APP_VERSION +:+ "</title>
        <meta charset=" +:+ Str.dq +:+ "utf-8" +:+ Str.dq +:+ ">
        <style>
            body { font-family: 'Microsoft JhengHei', sans-serif; text-align: center; padding: 50px; background-color: #f4f4f9; }
            .container { background: white; max-width: 600px; margin: auto; padding: 30px; border-radius: 15px; box-shadow: 0 4px 8px rgba(0,0,0,0.1); }
            h1 { color: #333; }
            .info { color: #777; font-size: 14px; margin-bottom: 30px; }
            .btn { padding: 15px 30px; font-size: 22px; margin: 10px; cursor: pointer; border: none; border-radius: 50px; transition: transform 0.2s; }
            .btn:active { transform: scale(0.95); }
            .apple { background-color: #ff4d4d; color: white; }
            .banana { background-color: #ffd700; color: black; }
            .stat { font-size: 28px; margin-top: 30px; font-weight: bold; }
            .count { color: #007bff; }
        </style>
    </head>
    <body>
        <div class=" +:+ Str.dq +:+ "container" +:+ Str.dq +:+ ">
            <h1>🏆 水果人氣投票 (" +:+ APP_VERSION +:+ ")</h1>
            <p class=" +:+ Str.dq +:+ "info" +:+ Str.dq +:+ ">後端資料庫: " +:+ redis_host_address +:+ " | Pod ID: " +:+ (os_environ_get "HOSTNAME" "local") +:+ "</p>
            
            <div id=" +:+ Str.dq +:+ "buttons" +:+ Str.dq +:+ ">
                <button class=" +:+ Str.dq +:+ "btn apple" +:+ Str.dq +:+ " onclick=" +:+ Str.dq +:+ "vote('apple')" +:+ Str.dq +:+ ">🍎 投給 Apple</button>
                <button class=" +:+ Str.dq +:+ "btn banana" +:+ Str.dq +:+ " onclick=" +:+ Str.dq +:+ "vote('banana')" +:+ Str.dq +:+ ">🍌 投給 Banana</button>
            </div>

            <div class=" +:+ Str.dq +:+ "stat" +:+ Str.dq +:+ ">
                <p>🍎 Apple 得票: <span id=" +:+ Str.dq +:+ "apple-count" +:+ Str.dq +:+ " class=" +:+ Str.dq +:+ "count" +:+ Str.dq +:+ ">...</span></p>
                <p>🍌 Banana 得票: <span id=" +:+ Str.dq +:+ "banana-count" +:+ Str.dq +:+ " class=" +:+ Str.dq +:+ "count" +:+ Str.dq +:+ ">...</span></p>
            </div>
        </div>

        <script>
            // 頁面載入後自動更新票數
            window.onload = updateCounts;

            // [AJAX 投票] 發送請求到後端 API，取得最新票數並更新網頁數字
            function vote(item) {
                fetch('/vote/' + item)
                    .then(res => res.json())
                    .then(data => {
                        document.getElementById(item + '-count').innerText = data.current_count;
                    });
            }

            // [更新票數] 從 /list API 拿回所有水果的統計數字
            function updateCounts() {
                fetch('/list')
                    .then(res => res.json())
                    .then(data => {
                        document.getElementById('apple-count').innerText = data.data['apple'] || 0;
                        document.getElementById('banana-count').innerText = data.data['banana'] || 0;
                    });
            }
        </script>
    </body>
    </html>
    ".

Definition hello : Py Response :=
  mret (mkResponse (Html html_content) 200).

(** The message a vote sends to the notifier. *)
Definition vote_message (product_name : string) (new_count : Z) : string :=
  "🔥 " +:+ product_name +:+ " 獲得一票！目前總票數: " +:+ py_str_int new_count.

(** The [try] block of [vote_item]. *)
Definition vote_item_body (product_name : string) : Py Response :=
  new_count ← redis_client_incr product_name;
  send_telegram_notification (vote_message product_name new_count);;
  mret (mkResponse (JsonVote "success" new_count APP_VERSION) 200).

Definition vote_item (product_name : string) : Py Response :=
  try_except (vote_item_body product_name)
    (λ error_detail,
       mret (mkResponse (JsonError (py_str_exc error_detail)) 500)).

(** The dictionary comprehension of [get_all]:
    [{key: int(redis_client.get(key) or 0) for key in keys}], filling
    [acc] key by key. *)
Fixpoint final_product_dictionary (keys : list string) (acc : gmap string Z)
  : Py (gmap string Z) :=
  match keys with
  | [] => mret acc
  | key :: rest =>
      v ← redis_client_get key;
      n ← lift_sum (py_int (py_or v (PyInt 0)));
      final_product_dictionary rest (<[key := n]> acc)
  end.

(** The [try] block of [get_all]. *)
Definition get_all_body : Py Response :=
  keys ← redis_client_keys_all;
  data ← final_product_dictionary keys ∅;
  mret (mkResponse (JsonList data APP_VERSION) 200).

Definition get_all : Py Response :=
  try_except get_all_body
    (λ error_detail,
       mret (mkResponse (JsonError (py_str_exc error_detail)) 500)).

(** *** Routing *)

Inductive Endpoint : Type :=
  | EP_hello
  | EP_vote_item (product_name : string)
  | EP_get_all.

(** What the [<product_name>] part of a URL may be: not empty, and without
    a slash. *)
Definition valid_product_name (p : string) : bool :=
  negb (String.eqb p "") && negb (Str.mem "/" p).

(** The three rules registered with [@app.route], on a path that the
    router takes as it stands.  What werkzeug does besides is not part of
    [app.py] and is left out: the redirect that merges repeated slashes,
    the static files, and the [/metrics] route of the exporter fall to the
    404 here. *)
Definition match_url (path : string) : option Endpoint :=
  if String.eqb path "/" then Some EP_hello
  else if String.eqb path "/list" then Some EP_get_all
  else match Str.strip_prefix "/vote/" path with
       | Some p => if valid_product_name p then Some (EP_vote_item p) else None
       | None => None
       end.

Definition view (ep : Endpoint) : Py Response :=
  match ep with
  | EP_hello => hello
  | EP_vote_item product_name => vote_item product_name
  | EP_get_all => get_all
  end.

(** One GET request. *)
Definition dispatch_request (path : string) : Py Response :=
  match match_url path with
  | Some ep => view ep
  | None => mret (mkResponse NotFound 404)
  end.

(** The process serving requests one after the other.  Each gets the
    outcome of its view: a response, or the exception that escaped it. *)
Fixpoint serve (paths : list string) (w : World) : list (Result Response) * World :=
  match paths with
  | [] => ([], w)
  | path :: rest =>
      let '(r, w1) := dispatch_request path w in
      let '(rs, w2) := serve rest w1 in
      (r :: rs, w2)
  end.

End App.

(** ** Vocabulary of the statements *)

(** Both notifier settings are present (non-empty). *)
Definition telegram_configured (environ : gmap string string) : bool :=
  py_truthy (PyStr (TELEGRAM_TOKEN environ)) && py_truthy (PyStr (TELEGRAM_CHAT_ID environ)).

(** The post that notifying [message] sends. *)
Definition telegram_post (environ : gmap string string) (message : string) : HttpPost :=
  mkHttpPost ("https://api.telegram.org/bot" +:+ TELEGRAM_TOKEN environ +:+ "/sendMessage")
    (TELEGRAM_CHAT_ID environ) (notification_text environ message) 1.

Definition posts_for (environ : gmap string string) (message : string) : list HttpPost :=
  if telegram_configured environ then [telegram_post environ message] else [].

(** The world after the posts [posts] have been attempted. *)
Definition with_posts (posts : list HttpPost) (w : World) : World :=
  mkWorld (redis_db w) (redis_log w) (redis_faults w) (redis_order w)
    (http_log w ++ posts) (http_net w).

(** The world after [cmd] has been sent, leaving the database [db]. *)
Definition with_command (cmd : RedisCommand) (db : gmap string RedisValue) (w : World) : World :=
  mkWorld db (redis_log w ++ [cmd]) (redis_faults w) (redis_order w) (http_log w) (http_net w).

(** The database after a command that failed as [f] says: as before when
    the command was not delivered, as the server left it when only the
    reply was lost. *)
Definition after_fault {A} (f : RedisFault)
    (exec : gmap string RedisValue → (PyException + A) * gmap string RedisValue)
    (db : gmap string RedisValue) : gmap string RedisValue :=
  match f with
  | NotDelivered _ => db
  | ReplyLost _ => (exec db).2
  end.

(** The bytes [s] are the UTF-8 encoding of a string. *)
Definition utf8_text (s : string) : Prop := ∃ chars, Utf8.decode 0 s = inr chars.

(** The same as a test. *)
Definition is_utf8 (s : string) : bool :=
  match Utf8.decode 0 s with inr _ => true | inl _ => false end.

(** The keys of the store, in the order in which the server names them to
    the next command. *)
Definition keys_now (w : World) : list string :=
  Redis.key_names (redis_order w (length (redis_log w))) (redis_db w).

(** No command fails among the next [k] ones. *)
Definition redis_reachable (w : World) (k : nat) : Prop :=
  ∀ i : nat, (i < k)%nat → redis_faults w (length (redis_log w) + i) = None.

(** The number the listing shows for a stored value: 0 for the empty
    string, the integer [int] reads otherwise; nothing when the bytes are
    not UTF-8, when [int] rejects the text or when the value is not a
    string. *)
Definition listed (v : RedisValue) : option Z :=
  match v with
  | RString s =>
      if String.eqb s "" then Some 0
      else match py_int_of_str s with inr n => Some n | inl _ => None end
  | RNotString => None
  end.

(** The number the listing computes for [key]: 0 when the key is missing. *)
Definition listed_at (db : gmap string RedisValue) (key : string) : option Z :=
  match db !! key with
  | None => Some 0
  | Some v => listed v
  end.

(** The stores the listing can show in full: every key is UTF-8 and every
    value has a number to show. *)
Definition readable_store (db : gmap string RedisValue) : Prop :=
  map_Forall (λ key v, is_utf8 key = true ∧ is_Some (listed v)) db.

(** The counter a stored value holds, as the server reads it. *)
Definition counter_of (v : RedisValue) : option Z :=
  match v with
  | RString s => Redis.string2ll s
  | RNotString => None
  end.

(** Every stored value is a counter that is not negative. *)
Definition counters_nonneg (db : gmap string RedisValue) : Prop :=
  ∀ key v, db !! key = Some v → ∃ n, counter_of v = Some n ∧ 0 ≤ n.

(** Keys stay, and counters do not go down, from [db] to [db']. *)
Definition counters_grow (db db' : gmap string RedisValue) : Prop :=
  ∀ key v, db !! key = Some v →
    ∃ v', db' !! key = Some v' ∧
          ∀ n, counter_of v = Some n → ∃ n', counter_of v' = Some n' ∧ n ≤ n'.

(** A key that appears from [db] to [db'] starts at 1. *)
Definition created_at_one (db db' : gmap string RedisValue) : Prop :=
  ∀ key v', db !! key = None → db' !! key = Some v' → v' = RString "1".

(** From [db] to [db'] nothing changed, or one INCR was carried out. *)
Definition incremented (db db' : gmap string RedisValue) : Prop :=
  db' = db ∨ ∃ key c, Redis.incr key db = (inr c, db').

(** A computation that only reads the store: the database and the oracles
    stay as they are, the log only grows, and a command that fails makes the
    whole computation raise that very error. *)
Definition reads_only {A} (m : Py A) : Prop :=
  ∀ w,
    redis_db (m w).2 = redis_db w
    ∧ redis_faults (m w).2 = redis_faults w
    ∧ redis_order (m w).2 = redis_order w
    ∧ (length (redis_log w) ≤ length (redis_log (m w).2))%nat
    ∧ ∀ (i : nat) f,
        (length (redis_log w) ≤ i < length (redis_log (m w).2))%nat →
        redis_faults w i = Some f → (m w).1 = Raise (fault_error f).


(** *** Worlds and settings used in examples *)

Module Scenario.

(** A fresh, reachable store; every post is answered with 200. *)
Definition fresh : World :=
  mkWorld ∅ [] (λ _, None) (λ _ _, 0%nat) [] (λ _, Responds 200).

(** The store cannot be reached for the first [k] commands. *)
Definition refused : PyException :=
  RedisConnectionError "Error 111 connecting to localhost:6379. Connection refused.".

Definition down_for (k : nat) : World :=
  mkWorld ∅ [] (λ i, if decide (i < k)%nat then Some (NotDelivered refused) else None)
    (λ _ _, 0%nat) [] (λ _, Responds 200).

(** A store where some other client has put a text that is not a number. *)
Definition with_text : World :=
  mkWorld {["x" := RString "abc"]} [] (λ _, None) (λ _ _, 0%nat) [] (λ _, Responds 200).

(** A store with an empty value and a padded number. *)
Definition with_blank : World :=
  mkWorld (<["apple" := RString ""]> {["banana" := RString " 7 "]}) []
    (λ _, None) (λ _ _, 0%nat) [] (λ _, Responds 200).

(** A reachable store whose network drops every post. *)
Definition offline_net : World :=
  mkWorld {["apple" := RString "41"]} [] (λ _, None) (λ _ _, 0%nat) []
    (λ _, Fails (RequestsException "Read timed out. (read timeout=1)")).

(** Notifier settings present. *)
Definition notifying : gmap string string :=
  <["TELEGRAM_TOKEN" := "123:abc"]> (<["TELEGRAM_CHAT_ID" := "-1001"]> (<["APP_VERSION" := "v2"]> ∅)).

End Scenario.

(** ** Vocabulary of the further properties *)

(** The answers a view may give: the page for the home route; for the two
    JSON routes either the success object of that route, tagged with the
    version, under 200, or an error object under 500. *)
Definition answer_shape (environ : gmap string string) (ep : Endpoint) (r : Response) : Prop :=
  match ep with
  | EP_hello => r = mkResponse (Html (html_content environ)) 200
  | EP_vote_item _ =>
      (∃ c, r = mkResponse (JsonVote "success" c (APP_VERSION environ)) 200)
      ∨ (∃ error, r = mkResponse (JsonError error) 500)
  | EP_get_all =>
      (∃ data, r = mkResponse (JsonList data (APP_VERSION environ)) 200)
      ∨ (∃ error, r = mkResponse (JsonError error) 500)
  end.

(** Two worlds with the same store side: same database, same commands
    sent, same failures to come.  They may differ in everything that
    concerns the notifier. *)
Definition same_store (w1 w2 : World) : Prop :=
  redis_db w1 = redis_db w2
  ∧ redis_log w1 = redis_log w2
  ∧ redis_faults w1 = redis_faults w2.

Module Cases.

(** A counter that has reached the largest 64-bit value. *)
Definition at_limit : World :=
  mkWorld {["apple" := RString "9223372036854775807"]} [] (λ _, None)
    (λ _ _, 0%nat) [] (λ _, Responds 200).

(** Like [Scenario.offline_net], but the posts go through and one post has
    already been made. *)
Definition online_net : World :=
  mkWorld {["apple" := RString "41"]} [] (λ _, None) (λ _ _, 0%nat)
    [mkHttpPost "https://api.telegram.org/bot123:abc/sendMessage" "-1001" "earlier" 1]
    (λ _, Responds 200).


Definition timeout : PyException := RedisTimeoutError "Timeout reading from socket".

(** The connection drops while the third command of a listing is under
    way: KEYS and the first GET go through, the reply to the second GET is
    lost. *)
Definition drops_midway : World :=
  mkWorld (<["apple" := RString "2"]> {["banana" := RString "5"]}) []
    (λ i, if decide (i = 2)%nat then Some (ReplyLost timeout) else None)
    (λ _ _, 0%nat) [] (λ _, Responds 200).

(** The connection drops while the first command is under way. *)
Definition drops_early : World :=
  mkWorld {["apple" := RString "41"]} []
    (λ i, if decide (i = 0)%nat then Some (ReplyLost timeout) else None)
    (λ _ _, 0%nat) [] (λ _, Responds 200).

(** A store where some other client has made a key that is not UTF-8 (the
    single byte 255); its value is a number. *)
Definition with_binary_key : World :=
  mkWorld {[Str.of_bytes [255%N] := RString "1"]} [] (λ _, None) (λ _ _, 0%nat) []
    (λ _, Responds 200).

(** A store whose values are numbers written in other scripts: three in
    Arabic-Indic digits, and twelve in fullwidth digits between
    ideographic spaces. *)
Definition with_other_digits : World :=
  mkWorld (<["apple" := RString "٣"]> {["banana" := RString "　１２　"]}) []
    (λ _, None) (λ _ _, 0%nat) [] (λ _, Responds 200).

(** A server that names banana before apple. *)
Definition banana_first : World :=
  mkWorld (<["apple" := RString "2"]> {["banana" := RString "5"]}) []
    (λ _, None) (λ _ key, if String.eqb key "banana" then 0%nat else 1%nat) []
    (λ _, Responds 200).

End Cases.

(** * Properties *)

(** ** The built-in [int] on examples *)

Example py_int_examples :
  py_int_of_str "12" = inr 12 /\ py_int_of_str " 12 " = inr 12 /\
  py_int_of_str "1_000" = inr 1000 /\ py_int_of_str "+5" = inr 5 /\
  py_int_of_str "-0" = inr 0 /\ py_int_of_str "007" = inr 7 /\
  py_int_of_str "-42" = inr (-42) /\
  py_int_of_str "abc" = inl (ValueError "invalid literal for int() with base 10: 'abc'") /\
  py_int_of_str "" = inl (ValueError "invalid literal for int() with base 10: ''") /\
  py_int_of_str "1__0" = inl (ValueError "invalid literal for int() with base 10: '1__0'") /\
  py_int_of_str "_1" = inl (ValueError "invalid literal for int() with base 10: '_1'") /\
  py_int_of_str "1_" = inl (ValueError "invalid literal for int() with base 10: '1_'") /\
  py_int_of_str "- 1" = inl (ValueError "invalid literal for int() with base 10: '- 1'") /\
  py_int_of_str "1.5" = inl (ValueError "invalid literal for int() with base 10: '1.5'").
Proof. repeat split; reflexivity. Qed.

(** Digits and whitespace of other scripts are digits and whitespace for
    [int]: Arabic-Indic, fullwidth and Devanagari digits, a no-break space
    and an em space. *)
Example py_int_other_scripts :
  py_int_of_str "٣" = inr 3 ∧ py_int_of_str "１２" = inr 12 ∧
  py_int_of_str "-٤٢" = inr (-42) ∧ py_int_of_str "१२३" = inr 123 ∧
  py_int_of_str (Str.of_bytes [194; 160; 32; 55; 226; 128; 131]%N) = inr 7 ∧
  py_int_of_str "٣a" = inl (ValueError "invalid literal for int() with base 10: '٣a'").
Proof. repeat split; vm_compute; reflexivity. Qed.

(** ** Decoding on examples *)

Example py_decode_examples :
  py_decode "café" = inr "café" ∧
  py_decode (Str.of_bytes [255]%N)
  = inl (UnicodeDecodeError
           "'utf-8' codec can't decode byte 0xff in position 0: invalid start byte") ∧
  py_decode (Str.of_bytes [226; 130]%N)
  = inl (UnicodeDecodeError
           "'utf-8' codec can't decode bytes in position 0-1: unexpected end of data") ∧
  py_decode (Str.of_bytes [97; 195; 40]%N)
  = inl (UnicodeDecodeError
           "'utf-8' codec can't decode byte 0xc3 in position 1: invalid continuation byte") ∧
  py_decode (Str.of_bytes [237; 160; 128]%N)
  = inl (UnicodeDecodeError
           "'utf-8' codec can't decode byte 0xed in position 0: invalid continuation byte").
Proof. repeat split; vm_compute; reflexivity. Qed.

(** ** Decimal strings *)

Lemma to_int_not_nil (n : Z) : Z.to_int n ≠ Pos Nil ∧ Z.to_int n ≠ Neg Nil.
Proof.
  destruct n as [|p|p]; simpl; split; try discriminate;
    intros [= H]; by apply (Unsigned.to_uint_nonnil p).
Qed.

Lemma int_of_py_str_int (n : Z) :
  NilZero.int_of_string (py_str_int n) = Some (Z.to_int n).
Proof.
  unfold py_str_int. destruct (to_int_not_nil n). by apply NilZero.isi.
Qed.

Lemma string2ll_py_str_int (n : Z) :
  Redis.LLONG_MIN ≤ n ≤ Redis.LLONG_MAX → Redis.string2ll (py_str_int n) = Some n.
Proof.
  intros Hn. unfold Redis.string2ll. rewrite int_of_py_str_int. simpl.
  rewrite DecimalZ.of_to. by rewrite decide_True.
Qed.

Lemma string2ll_Some (s : string) (n : Z) :
  Redis.string2ll s = Some n →
  s = py_str_int n ∧ Redis.LLONG_MIN ≤ n ≤ Redis.LLONG_MAX.
Proof.
  unfold Redis.string2ll. destruct (NilZero.int_of_string s) as [d|]; simpl; [|done].
  case_decide as H; [|done]. intros [= <-]. by destruct H.
Qed.

(** ** Running computations *)

Lemma run_bind {A B} (m : Py A) (k : A → Py B) (w : World) :
  (m ≫= k) w = match m w with
               | (Return a, w') => k a w'
               | (Raise e, w') => (Raise e, w')
               end.
Proof. reflexivity. Qed.

Lemma run_ret {A} (a : A) (w : World) : (mret a : Py A) w = (Return a, w).
Proof. reflexivity. Qed.

Lemma redis_call_fault {A} cmd (exec : _ → (PyException + A) * _) w f :
  redis_faults w (length (redis_log w)) = Some f →
  redis_call cmd exec w
  = (Raise (fault_error f), with_command cmd (after_fault f exec (redis_db w)) w).
Proof. intros H. unfold redis_call. rewrite H. by destruct f. Qed.

Lemma redis_call_sent {A} cmd (exec : _ → (PyException + A) * _) w :
  redis_faults w (length (redis_log w)) = None →
  redis_call cmd exec w =
    (of_sum (exec (redis_db w)).1, with_command cmd (exec (redis_db w)).2 w).
Proof. intros H. unfold redis_call. rewrite H. by destruct (exec (redis_db w)). Qed.

Section AppFacts.

Variable environ : gmap string string.

(** The notifier always returns, and the only trace it leaves is the post
    it attempted. *)
Lemma send_telegram_notification_run (message : string) (w : World) :
  send_telegram_notification environ message w
  = (Return tt, with_posts (posts_for environ message) w).
Proof.
  unfold send_telegram_notification, posts_for, telegram_configured.
  destruct (py_truthy (PyStr (TELEGRAM_TOKEN environ))
            && py_truthy (PyStr (TELEGRAM_CHAT_ID environ))).
  - unfold try_except. rewrite run_bind. unfold requests_post.
    by destruct (http_net w (length (http_log w))).
  - unfold with_posts. rewrite app_nil_r. by destruct w.
Qed.

(** A vote whose command reaches the server. *)
Lemma vote_item_sent (p : string) (w : World) :
  redis_faults w (length (redis_log w)) = None →
  vote_item environ p w
  = match Redis.incr p (redis_db w) with
    | (inl e, db') =>
        (Return (mkResponse (JsonError (py_str_exc e)) 500),
         with_command (INCR p) db' w)
    | (inr c, db') =>
        (Return (mkResponse (JsonVote "success" c (APP_VERSION environ)) 200),
         with_posts (posts_for environ (vote_message p c)) (with_command (INCR p) db' w))
    end.
Proof.
  intros Hup. unfold vote_item, try_except, vote_item_body.
  rewrite run_bind. unfold redis_client_incr. rewrite redis_call_sent by done.
  destruct (Redis.incr p (redis_db w)) as [[e|c] db']; simpl; [done|].
  by rewrite run_bind, send_telegram_notification_run.
Qed.

(** A vote when the command goes through and the server accepts it. *)
Lemma vote_item_incremented (p : string) (w : World) (n : Z) :
  redis_faults w (length (redis_log w)) = None →
  Redis.integer_at (redis_db w) p = inr n →
  n < Redis.LLONG_MAX →
  vote_item environ p w
  = (Return (mkResponse (JsonVote "success" (n + 1) (APP_VERSION environ)) 200),
     with_posts (posts_for environ (vote_message p (n + 1)))
       (with_command (INCR p) (<[p := RString (py_str_int (n + 1))]> (redis_db w)) w)).
Proof.
  intros Hup Hn Hmax. rewrite vote_item_sent by done.
  unfold Redis.incr. rewrite Hn. by rewrite decide_False by lia.
Qed.

(** A vote whose command fails, on the way there or on the way back. *)
Lemma vote_item_fault (p : string) (w : World) (f : RedisFault) :
  redis_faults w (length (redis_log w)) = Some f →
  vote_item environ p w
  = (Return (mkResponse (JsonError (py_str_exc (fault_error f))) 500),
     with_command (INCR p) (after_fault f (Redis.incr p) (redis_db w)) w).
Proof.
  intros Hdown. unfold vote_item, try_except, vote_item_body.
  rewrite run_bind. unfold redis_client_incr. by rewrite redis_call_fault with (f := f).
Qed.

Lemma integer_at_after_incr (db : gmap string RedisValue) (p : string) (n : Z) :
  Redis.integer_at db p = inr n →
  n < Redis.LLONG_MAX →
  Redis.integer_at (<[p := RString (py_str_int (n + 1))]> db) p = inr (n + 1).
Proof.
  intros Hn Hmax. unfold Redis.integer_at in *. rewrite lookup_insert_eq.
  assert (Redis.LLONG_MIN ≤ n) as Hmin.
  { destruct (db !! p) as [[s|]|]; [|done|].
    - destruct (Redis.string2ll s) as [m|] eqn:Hs; [|done].
      apply string2ll_Some in Hs as [_ Hs]. injection Hn as <-. lia.
    - injection Hn as <-. by unfold Redis.LLONG_MIN. }
  rewrite string2ll_py_str_int; [done|lia].
Qed.

Lemma match_url_vote (p : string) :
  valid_product_name p = true →
  match_url ("/vote/" +:+ p) = Some (EP_vote_item p).
Proof.
  intros Hp. unfold match_url. simpl.
  change ("" +:+ p) with p. by rewrite Hp.
Qed.

Lemma dispatch_vote (p : string) (w : World) :
  valid_product_name p = true →
  dispatch_request environ ("/vote/" +:+ p) w = vote_item environ p w.
Proof. intros Hp. unfold dispatch_request. by rewrite match_url_vote. Qed.

(** ** Voting *)

(** C1, as the code has it: for every valid product name [p] whose counter
    is [n] before the first vote, two votes in a row answer with the counts
    [n + 1] and then [n + 2] (the store being reachable and the counter
    below the 64-bit limit). *)
Theorem vote_twice_counts (p : string) (w : World) (n : Z) :
  valid_product_name p = true →
  Redis.integer_at (redis_db w) p = inr n →
  n + 1 < Redis.LLONG_MAX →
  redis_reachable w 2 →
  ∃ w', serve environ ["/vote/" +:+ p; "/vote/" +:+ p] w
        = ([Return (mkResponse (JsonVote "success" (n + 1) (APP_VERSION environ)) 200);
            Return (mkResponse (JsonVote "success" (n + 2) (APP_VERSION environ)) 200)],
           w').
Proof.
  intros Hp Hn Hmax Hup.
  assert (redis_faults w (length (redis_log w)) = None) as Hup0.
  { rewrite <-(Nat.add_0_r (length _)). apply (Hup 0%nat). lia. }
  assert (redis_faults w (length (redis_log w ++ [INCR p])) = None) as Hup1.
  { rewrite length_app. apply (Hup 1%nat). lia. }
  unfold serve. rewrite dispatch_vote by done.
  rewrite (vote_item_incremented p w n) by (done || lia).
  rewrite dispatch_vote by done.
  rewrite (vote_item_incremented p _ (n + 1)); simpl.
  - replace (n + 1 + 1) with (n + 2) by lia. eauto.
  - done.
  - by apply integer_at_after_incr; [|lia].
  - lia.
Qed.

(** C2: a vote for a key that the store does not hold reads the missing
    counter as 0, sends the single command INCR, which creates the key with
    the value 1, and answers with [current_count] 1. *)
Theorem first_vote_creates_counter (key : string) (w : World) :
  redis_db w !! key = None →
  redis_faults w (length (redis_log w)) = None →
  ∃ w', vote_item environ key w
        = (Return (mkResponse (JsonVote "success" 1 (APP_VERSION environ)) 200), w')
      ∧ Redis.integer_at (redis_db w) key = inr 0
      ∧ redis_db w' = <[key := RString "1"]> (redis_db w)
      ∧ redis_log w' = redis_log w ++ [INCR key].
Proof.
  intros Hkey Hup.
  assert (Redis.integer_at (redis_db w) key = inr 0) as H0.
  { unfold Redis.integer_at. by rewrite Hkey. }
  eexists. split; [|split; [done|]].
  - by rewrite (vote_item_incremented key w 0).
  - done.
Qed.

(** C10: when a vote succeeds, exactly one command was sent to the store,
    the INCR of that product; the count [c] in the JSON answer is what that
    INCR returned, the store holds [c] for the product, and the text handed
    to the notifier (when it is configured) carries the same [c]. *)
Theorem vote_success_single_increment (p : string) (w w' : World) (r : Response) :
  vote_item environ p w = (Return r, w') →
  status_code r = 200 →
  ∃ c, r = mkResponse (JsonVote "success" c (APP_VERSION environ)) 200
     ∧ redis_log w' = redis_log w ++ [INCR p]
     ∧ Redis.incr p (redis_db w) = (inr c, redis_db w')
     ∧ redis_db w' !! p = Some (RString (py_str_int c))
     ∧ http_log w' = http_log w ++ posts_for environ (vote_message p c)
     ∧ Forall (λ post, post_text post
                       = "[" +:+ APP_VERSION environ +:+ "] 🔥 " +:+ p
                         +:+ " 獲得一票！目前總票數: " +:+ py_str_int c)
         (posts_for environ (vote_message p c)).
Proof.
  intros Hrun Hok.
  destruct (redis_faults w (length (redis_log w))) as [e|] eqn:Hup.
  { rewrite (vote_item_fault p w e) in Hrun by done.
    injection Hrun as <- <-. done. }
  rewrite vote_item_sent in Hrun by done.
  destruct (Redis.incr p (redis_db w)) as [[e|c] db'] eqn:Hincr.
  { injection Hrun as <- <-. done. }
  injection Hrun as <- <-. exists c. simpl.
  repeat split; try done.
  - unfold Redis.incr in Hincr.
    destruct (Redis.integer_at (redis_db w) p) as [e|n]; [done|].
    case_decide; [done|]. injection Hincr as <- <-. by rewrite lookup_insert_eq.
  - unfold posts_for. destruct (telegram_configured environ); by repeat constructor.
Qed.

(** ** The notifier *)

(** C5: whatever the message, the notifier settings and the fate of the
    post, [send_telegram_notification] returns without raising and leaves
    the store alone; without a token or without a chat id it does nothing
    at all; and a vote answers with the incremented count whether or not a
    notification could be delivered. *)
Theorem notifier_never_raises (message : string) (w : World) :
  (∃ w', send_telegram_notification environ message w = (Return tt, w')
         ∧ redis_db w' = redis_db w ∧ redis_log w' = redis_log w)
  ∧ (TELEGRAM_TOKEN environ = "" ∨ TELEGRAM_CHAT_ID environ = "" →
     send_telegram_notification environ message w = (Return tt, w))
  ∧ (∀ p n,
       Redis.integer_at (redis_db w) p = inr n →
       n < Redis.LLONG_MAX →
       redis_faults w (length (redis_log w)) = None →
       (vote_item environ p w).1
       = Return (mkResponse (JsonVote "success" (n + 1) (APP_VERSION environ)) 200)).
Proof.
  split; [|split].
  - rewrite send_telegram_notification_run. eauto.
  - intros Hoff. rewrite send_telegram_notification_run.
    assert (posts_for environ message = []) as ->.
    { unfold posts_for, telegram_configured.
      destruct Hoff as [-> | ->]; simpl; [done|]. by rewrite andb_false_r. }
    unfold with_posts. rewrite app_nil_r. by destruct w.
  - intros p n Hn Hmax Hup. by rewrite (vote_item_incremented p w n).
Qed.

(** C6: every post the notifier makes for [message] carries the text
    [[version] message]: the version tag in brackets, a space, then the
    message as given.  It makes at most one post, and exactly one when both
    settings are present. *)
Theorem notification_text_prefixed (message : string) (w : World) :
  ∃ posts,
    http_log (send_telegram_notification environ message w).2 = http_log w ++ posts
    ∧ Forall (λ post, post_text post = "[" +:+ APP_VERSION environ +:+ "] " +:+ message
                      ∧ post_chat_id post = TELEGRAM_CHAT_ID environ) posts
    ∧ (length posts ≤ 1)%nat
    ∧ (TELEGRAM_TOKEN environ ≠ "" → TELEGRAM_CHAT_ID environ ≠ "" → length posts = 1%nat).
Proof.
  exists (posts_for environ message).
  rewrite send_telegram_notification_run. simpl.
  unfold posts_for, telegram_configured. simpl.
  destruct (String.eqb_spec (TELEGRAM_TOKEN environ) "") as [Ht|Ht];
    destruct (String.eqb_spec (TELEGRAM_CHAT_ID environ) "") as [Hc|Hc]; simpl;
    repeat split; try done; try lia; by repeat constructor.
Qed.

(** ** The home page *)

Lemma contains_here (t rest : string) : Str.contains (t +:+ rest) t.
Proof. by exists "", rest. Qed.

Lemma append_assoc (a b c : string) : (a +:+ b) +:+ c = a +:+ b +:+ c.
Proof.
  induction a as [|x a IH]; [done|].
  change (String x ((a +:+ b) +:+ c) = String x (a +:+ b +:+ c)). by rewrite IH.
Qed.

Lemma contains_skip (a s t : string) : Str.contains s t → Str.contains (a +:+ s) t.
Proof.
  intros (before & after & ->). exists (a +:+ before), after.
  by rewrite append_assoc.
Qed.

(** C7: the page served at the root contains the version tag and the
    address of the store, verbatim. *)
Theorem root_page_shows_version_and_store (w : World) :
  ∃ page w',
    dispatch_request environ "/" w = (Return (mkResponse (Html page) 200), w')
    ∧ Str.contains page (APP_VERSION environ)
    ∧ Str.contains page (redis_host_address environ).
Proof.
  exists (html_content environ), w. split; [done|]. unfold html_content. split.
  - apply contains_skip, contains_here.
  - repeat first [apply contains_here | apply contains_skip].
Qed.

(** C8: serving the root page sends nothing to the store and posts
    nothing: whatever the state of the store and of the network, reachable
    or not, the answer is the 200 page and the world is exactly as
    before. *)
Theorem root_page_touches_nothing (w : World) :
  dispatch_request environ "/" w
  = (Return (mkResponse (Html (html_content environ)) 200), w).
Proof. reflexivity. Qed.

(** ** Computations that only read the store *)

Lemma reads_only_ret {A} (a : A) : reads_only (mret a : Py A).
Proof.
  intros w. rewrite run_ret. simpl.
  split; [done|split; [done|split; [done|split; [done|]]]]. intros i f Hi. lia.
Qed.

Lemma reads_only_lift_sum {A} (r : PyException + A) : reads_only (lift_sum r).
Proof.
  intros w. unfold lift_sum. simpl.
  split; [done|split; [done|split; [done|split; [done|]]]]. intros i f Hi. lia.
Qed.

Lemma reads_only_bind {A B} (m : Py A) (k : A → Py B) :
  reads_only m → (∀ a, reads_only (k a)) → reads_only (m ≫= k).
Proof.
  intros Hm Hk w. rewrite run_bind.
  destruct (Hm w) as (Hdb & Hf & Ho & Hlen & Hraise).
  destruct (m w) as [[a|e0] w1] eqn:Hrun; simpl in *.
  2: { split; [done|split; [done|split; [done|split; [done|]]]].
       intros i f Hi Hfault. specialize (Hraise i f Hi Hfault).
       by injection Hraise as ->. }
  destruct (Hk a w1) as (Hdb' & Hf' & Ho' & Hlen' & Hraise').
  split; [congruence|split; [congruence|split; [congruence|split; [lia|]]]].
  intros i f Hi Hfault.
  destruct (decide (i < length (redis_log w1))%nat) as [Hlt|Hge].
  - by specialize (Hraise i f ltac:(lia) Hfault).
  - apply (Hraise' i f); [lia|]. by rewrite Hf.
Qed.

Lemma reads_only_call {A} cmd (exec : _ → (PyException + A) * _) :
  (∀ db, (exec db).2 = db) → reads_only (redis_call cmd exec).
Proof.
  intros Hexec w.
  destruct (redis_faults w (length (redis_log w))) as [f0|] eqn:Hup.
  - rewrite (redis_call_fault _ _ _ f0) by done. simpl.
    rewrite length_app. simpl.
    split; [by destruct f0; simpl; rewrite ?Hexec|].
    split; [done|split; [done|split; [lia|]]].
    intros i f Hi Hfault. replace i with (length (redis_log w)) in Hfault by lia.
    congruence.
  - rewrite redis_call_sent by done. simpl. rewrite Hexec.
    rewrite length_app. simpl. split; [done|split; [done|split; [done|split; [lia|]]]].
    intros i f Hi Hfault. replace i with (length (redis_log w)) in Hfault by lia.
    congruence.
Qed.

Lemma get_keeps_db (key : string) (db : gmap string RedisValue) :
  (Redis.get key db).2 = db.
Proof. unfold Redis.get. by destruct (db !! key) as [[s|]|]. Qed.

Lemma reads_only_get (key : string) : reads_only (redis_client_get key).
Proof.
  apply reads_only_bind.
  - apply reads_only_call, get_keeps_db.
  - intros v. apply reads_only_lift_sum.
Qed.

Lemma reads_only_keys_all : reads_only redis_client_keys_all.
Proof.
  apply reads_only_bind.
  - intros w.
    exact (reads_only_call KEYS_all
             (Redis.keys_all (redis_order w (length (redis_log w)))) (λ db, eq_refl) w).
  - intros keys. apply reads_only_lift_sum.
Qed.

Lemma reads_only_final_product_dictionary (keys : list string) (acc : gmap string Z) :
  reads_only (final_product_dictionary keys acc).
Proof.
  revert acc. induction keys as [|key rest IH]; intros acc; simpl.
  - apply reads_only_ret.
  - apply reads_only_bind; [apply reads_only_get|]. intros v.
    apply reads_only_bind; [apply reads_only_lift_sum|]. intros n. apply IH.
Qed.

Lemma reads_only_get_all_body : reads_only (get_all_body environ).
Proof.
  apply reads_only_bind; [apply reads_only_keys_all|]. intros keys.
  apply reads_only_bind; [apply reads_only_final_product_dictionary|]. intros data.
  apply reads_only_ret.
Qed.

Lemma get_all_run (w : World) :
  get_all environ w
  = match get_all_body environ w with
    | (Return resp, w') => (Return resp, w')
    | (Raise e, w') => (Return (mkResponse (JsonError (py_str_exc e)) 500), w')
    end.
Proof. reflexivity. Qed.

Lemma get_all_keeps_db (w : World) : redis_db (get_all environ w).2 = redis_db w.
Proof.
  rewrite get_all_run. destruct (reads_only_get_all_body w) as (Hdb & _).
  by destruct (get_all_body environ w) as [[resp|e] w'].
Qed.

(** ** Every request is answered *)



Lemma serve_cons (path : string) (rest : list string) (w : World) :
  serve environ (path :: rest) w
  = ((dispatch_request environ path w).1
       :: (serve environ rest (dispatch_request environ path w).2).1,
     (serve environ rest (dispatch_request environ path w).2).2).
Proof.
  cbn [serve]. destruct (dispatch_request environ path w) as [r w1].
  cbn [fst snd]. by destruct (serve environ rest w1) as [rs w2].
Qed.


(** ** The listing *)

Lemma reachable_step (w : World) (k : nat) :
  redis_reachable w (S k) →
  redis_faults w (length (redis_log w)) = None
  ∧ ∀ cmd db, redis_reachable (with_command cmd db w) k.
Proof.
  intros Hup. split.
  - rewrite <-(Nat.add_0_r (length _)). apply (Hup 0%nat). lia.
  - intros cmd db i Hi. simpl. rewrite length_app. simpl.
    rewrite <-Nat.add_assoc. apply (Hup (1 + i)%nat). lia.
Qed.

(** The keys as the server names them: all of them, each once. *)
Lemma key_names_keys (rank : string → nat) (db : gmap string RedisValue) :
  Redis.key_names rank db ≡ₚ (map_to_list db).*1.
Proof. apply merge_sort_Permutation. Qed.

Lemma elem_of_keys (rank : string → nat) (db : gmap string RedisValue) (k : string) :
  k ∈ Redis.key_names rank db ↔ is_Some (db !! k).
Proof.
  rewrite key_names_keys, list_elem_of_fmap. split.
  - intros ([k' v] & -> & Hin). apply elem_of_map_to_list in Hin. by exists v.
  - intros [v Hv]. exists (k, v). split; [done|]. by apply elem_of_map_to_list.
Qed.

Lemma length_key_names (rank : string → nat) (db : gmap string RedisValue) :
  length (Redis.key_names rank db) = size db.
Proof. by rewrite key_names_keys, length_fmap, length_map_to_list. Qed.

Lemma py_decode_text (s : string) : utf8_text s → py_decode s = inr s.
Proof. intros [chars Hs]. unfold py_decode. by rewrite Hs. Qed.

Lemma py_decode_inr (s t : string) : py_decode s = inr t → t = s ∧ utf8_text s.
Proof.
  unfold py_decode, utf8_text. destruct (Utf8.decode 0 s) as [err|chars]; [done|].
  intros [= <-]. eauto.
Qed.

Lemma decode_keys_inr (keys ks : list string) :
  decode_keys keys = inr ks → ks = keys ∧ ∀ k, k ∈ keys → utf8_text k.
Proof.
  revert ks. induction keys as [|key rest IH]; intros ks; simpl.
  - intros [= <-]. split; [done|]. by intros k ?%elem_of_nil.
  - destruct (py_decode key) as [e|k] eqn:Hkey; [done|].
    apply py_decode_inr in Hkey as [-> Hkey].
    destruct (decode_keys rest) as [e|ks'] eqn:Hrest; [done|].
    destruct (IH ks' eq_refl) as [-> Hall]. intros [= <-]. split; [done|].
    intros k [->|Hin]%elem_of_cons; [done|by apply Hall].
Qed.

Lemma decode_keys_text (keys : list string) :
  (∀ k, k ∈ keys → utf8_text k) → decode_keys keys = inr keys.
Proof.
  induction keys as [|key rest IH]; intros Hall; simpl; [done|].
  rewrite py_decode_text by (apply Hall; left).
  rewrite IH; [done|]. intros k Hk. apply Hall. by right.
Qed.

(** [redis_client.keys('*')] when the command goes through. *)
Lemma keys_all_sent (w : World) :
  redis_faults w (length (redis_log w)) = None →
  redis_client_keys_all w
  = (of_sum (decode_keys (keys_now w)), with_command KEYS_all (redis_db w) w).
Proof.
  intros Hup. unfold redis_client_keys_all. rewrite run_bind.
  by rewrite redis_call_sent.
Qed.

(** [redis_client.get(key)] when the command goes through. *)
Lemma get_sent (key : string) (w : World) :
  redis_faults w (length (redis_log w)) = None →
  redis_client_get key w
  = (of_sum (match (Redis.get key (redis_db w)).1 with
             | inl e => inl e
             | inr v => decode_value v
             end),
     with_command (GET key) (redis_db w) w).
Proof.
  intros Hup. unfold redis_client_get. rewrite run_bind.
  rewrite redis_call_sent by done. rewrite get_keeps_db.
  by destruct (Redis.get key (redis_db w)).1.
Qed.

Lemma py_int_of_str_text (s : string) (n : Z) : py_int_of_str s = inr n → utf8_text s.
Proof.
  unfold py_int_of_str, utf8_text. destruct (Utf8.decode 0 s); [done|eauto].
Qed.

(** [int(redis_client.get(key) or 0)] on a value the listing can show. *)
Lemma int_or_0_listed (db : gmap string RedisValue) (key : string) (n : Z) :
  listed_at db key = Some n →
  ∃ v, (Redis.get key db).1 = inr v
       ∧ decode_value v = inr v
       ∧ py_int (py_or v (PyInt 0)) = inr n.
Proof.
  unfold listed_at, Redis.get. destruct (db !! key) as [[s|]|]; simpl.
  - intros Hn. exists (PyStr s). split; [done|].
    destruct (String.eqb s "") eqn:Hempty.
    + apply String.eqb_eq in Hempty. subst s. injection Hn as <-. by split.
    + destruct (py_int_of_str s) as [e|m] eqn:Hint; [done|]. injection Hn as ->.
      split.
      * simpl. by rewrite (py_decode_text s (py_int_of_str_text s n Hint)).
      * unfold py_or. simpl. by rewrite Hempty.
  - done.
  - intros [= <-]. by exists PyNone.
Qed.

Lemma final_product_dictionary_listed (keys : list string) :
  ∀ (acc : gmap string Z) (w : World),
    (∀ key, key ∈ keys → is_Some (listed_at (redis_db w) key)) →
    redis_reachable w (length keys) →
    ∃ data w',
      final_product_dictionary keys acc w = (Return data, w')
      ∧ redis_db w' = redis_db w
      ∧ ∀ k, data !! k
             = if decide (k ∈ keys) then listed_at (redis_db w) k else acc !! k.
Proof.
  induction keys as [|key rest IH]; intros acc w Hkeys Hup.
  - exists acc, w. split; [done|]. split; [done|]. intros k.
    rewrite decide_False; [done|]. apply not_elem_of_nil.
  - destruct (Hkeys key) as [n Hn]; [left|].
    destruct (int_or_0_listed _ _ _ Hn) as (v & Hget & Hdec & Hint).
    destruct (reachable_step w (length rest) Hup) as [Hup0 Hrest].
    cbn [final_product_dictionary]. rewrite run_bind, get_sent by done.
    rewrite Hget, Hdec. simpl. rewrite run_bind. unfold lift_sum at 1. rewrite Hint. simpl.
    destruct (IH (<[key := n]> acc) (with_command (GET key) (redis_db w) w))
      as (data & w' & Hrun & Hdb & Hdata).
    { intros k Hk. simpl. apply Hkeys. by right. }
    { apply Hrest. }
    exists data, w'. split; [done|]. split; [done|]. intros k.
    rewrite Hdata. simpl.
    destruct (decide (k ∈ rest)) as [Hin|Hout].
    + rewrite decide_True; [done|by right].
    + destruct (decide (k = key)) as [->|Hne].
      * rewrite lookup_insert_eq, decide_True; [done|left].
      * rewrite lookup_insert_ne by done. rewrite decide_False; [done|].
        intros [?|?]%elem_of_cons; done.
Qed.

Lemma is_utf8_text (s : string) : is_utf8 s = true → utf8_text s.
Proof.
  unfold is_utf8, utf8_text. destruct (Utf8.decode 0 s); [done|eauto].
Qed.

Lemma readable_store_listed (db : gmap string RedisValue) :
  readable_store db →
  ∀ key v, db !! key = Some v → utf8_text key ∧ is_Some (listed v).
Proof.
  intros Hdb key v Hkey. destruct (Hdb key v Hkey) as [Htext Hv].
  split; [by apply is_utf8_text|done].
Qed.

(** The listing of a reachable store whose keys are text and whose values
    can all be shown. *)
Lemma get_all_listed (w : World) :
  redis_reachable w (S (size (redis_db w))) →
  (∀ key v, redis_db w !! key = Some v → utf8_text key ∧ is_Some (listed v)) →
  ∃ w', get_all environ w
        = (Return (mkResponse (JsonList (omap listed (redis_db w)) (APP_VERSION environ)) 200),
           w')
        ∧ redis_db w' = redis_db w.
Proof.
  intros Hup Hvalues. destruct (reachable_step w _ Hup) as [Hup0 Hrest].
  rewrite get_all_run. unfold get_all_body. rewrite run_bind, keys_all_sent by done.
  rewrite decode_keys_text.
  2: { intros k [v Hv]%elem_of_keys. by destruct (Hvalues k v Hv). }
  simpl. rewrite run_bind.
  destruct (final_product_dictionary_listed (keys_now w) ∅
              (with_command KEYS_all (redis_db w) w))
    as (data & w' & Hrun & Hdb & Hdata).
  { intros key [v Hv]%elem_of_keys. simpl. unfold listed_at. rewrite Hv.
    by destruct (Hvalues key v Hv). }
  { unfold keys_now. rewrite length_key_names. apply Hrest. }
  rewrite Hrun, run_ret. exists w'. split; [|done]. do 4 f_equal.
  apply map_eq. intros k. rewrite Hdata, lookup_omap. simpl.
  destruct (redis_db w !! k) as [v|] eqn:Hk.
  - rewrite decide_True by (apply elem_of_keys; eauto).
    unfold listed_at. by rewrite Hk.
  - rewrite decide_False; [done|]. unfold keys_now. rewrite elem_of_keys, Hk.
    by intros [? ?].
Qed.

Lemma final_product_dictionary_missing (key : string) (w : World) :
  redis_faults w (length (redis_log w)) = None →
  redis_db w !! key = None →
  ∃ w', final_product_dictionary [key] ∅ w = (Return {[key := 0]}, w').
Proof.
  intros Hup Hkey.
  destruct (final_product_dictionary_listed [key] ∅ w) as (data & w' & Hrun & _ & Hdata).
  { intros k ->%list_elem_of_singleton. unfold listed_at. rewrite Hkey. eauto. }
  { intros i Hi. simpl in Hi. replace i with 0%nat by lia. by rewrite Nat.add_0_r. }
  exists w'. rewrite Hrun. do 2 f_equal. apply map_eq. intros k. rewrite Hdata.
  destruct (decide (k = key)) as [->|Hne].
  - rewrite decide_True by left. unfold listed_at.
    by rewrite Hkey, lookup_singleton_eq.
  - rewrite decide_False by (by intros ?%list_elem_of_singleton).
    by rewrite lookup_singleton_ne.
Qed.

(** C3, as the code has it: when the store is reachable, every key is
    UTF-8 text and every stored value is a UTF-8 string that is empty or
    that [int] accepts, the listing answers 200 with the version tag and a
    [data] field that maps every key of the store to its integer, the empty
    string counting as 0; a key that has gone missing when its value is
    fetched counts as 0 as well. *)
Theorem get_all_lists_counters (w : World) :
  redis_reachable w (S (size (redis_db w))) →
  (∀ key v, redis_db w !! key = Some v → utf8_text key ∧ is_Some (listed v)) →
  (∃ w', get_all environ w
         = (Return (mkResponse (JsonList (omap listed (redis_db w)) (APP_VERSION environ)) 200),
            w')
         ∧ redis_db w' = redis_db w)
  ∧ (∀ key, redis_db w !! key = None →
       ∃ w', final_product_dictionary [key] ∅ w = (Return {[key := 0]}, w')).
Proof.
  intros Hup Hvalues. split.
  - by apply get_all_listed.
  - intros key Hkey. apply final_product_dictionary_missing; [|done].
    by destruct (reachable_step w _ Hup).
Qed.

(** A key whose value the listing cannot show makes the comprehension
    raise. *)
Lemma final_product_dictionary_unreadable (keys : list string) :
  ∀ (acc : gmap string Z) (w : World),
    redis_reachable w (length keys) →
    (∃ key, key ∈ keys ∧ listed_at (redis_db w) key = None) →
    ∃ e w', final_product_dictionary keys acc w = (Raise e, w').
Proof.
  induction keys as [|key rest IH]; intros acc w Hup (bad & Hin & Hbad).
  - by apply elem_of_nil in Hin.
  - destruct (reachable_step w (length rest) Hup) as [Hup0 Hrest].
    cbn [final_product_dictionary]. rewrite run_bind, get_sent by done.
    destruct (listed_at (redis_db w) key) as [n|] eqn:Hkey.
    + destruct (int_or_0_listed _ _ _ Hkey) as (v & Hget & Hdec & Hint).
      rewrite Hget, Hdec. simpl. rewrite run_bind. unfold lift_sum at 1.
      rewrite Hint. simpl.
      apply IH; [apply Hrest|]. exists bad. simpl. split; [|done].
      apply elem_of_cons in Hin as [->|Hin]; [congruence|done].
    + unfold listed_at, Redis.get in *.
      destruct (redis_db w !! key) as [[s|]|]; simpl in *; [| |done].
      * destruct (py_decode s) as [e|t] eqn:Hs; simpl; [eauto|].
        apply py_decode_inr in Hs as [-> _].
        rewrite run_bind. unfold lift_sum, py_or. simpl.
        destruct (String.eqb s ""); simpl in *; [done|].
        destruct (py_int_of_str s); simpl; [eauto|done].
      * eauto.
Qed.

(** X13: the listing is all or nothing: one key that is not UTF-8, or one
    stored value that is not a UTF-8 string, or is neither empty nor
    accepted by [int], turns the whole listing of a reachable store into a
    500 with an error object. *)
Theorem get_all_rejects_unreadable (w : World) :
  redis_reachable w (S (size (redis_db w))) →
  (∃ key v, redis_db w !! key = Some v ∧ (¬ utf8_text key ∨ listed v = None)) →
  ∃ error w', get_all environ w = (Return (mkResponse (JsonError error) 500), w').
Proof.
  intros Hup (key & v & Hkey & Hbad).
  destruct (reachable_step w _ Hup) as [Hup0 Hrest].
  rewrite get_all_run. unfold get_all_body. rewrite run_bind, keys_all_sent by done.
  destruct (decode_keys (keys_now w)) as [e|ks] eqn:Hkeys; simpl; [eauto|].
  apply decode_keys_inr in Hkeys as [-> Htext].
  destruct Hbad as [Hbad|Hbad].
  { destruct Hbad. apply Htext. apply elem_of_keys. eauto. }
  rewrite run_bind.
  destruct (final_product_dictionary_unreadable (keys_now w) ∅
              (with_command KEYS_all (redis_db w) w)) as (e & w' & ->).
  - unfold keys_now. rewrite length_key_names. apply Hrest.
  - exists key. split; [apply elem_of_keys; eauto|].
    simpl. unfold listed_at. by rewrite Hkey.
  - eauto.
Qed.

(** ** When the store fails *)




(** ** Counters only grow *)

Lemma incr_accepted (key : string) (db db' : gmap string RedisValue) (c : Z) :
  Redis.incr key db = (inr c, db') →
  ∃ n, Redis.integer_at db key = inr n
       ∧ Redis.LLONG_MIN ≤ n < Redis.LLONG_MAX
       ∧ c = n + 1
       ∧ db' = <[key := RString (py_str_int c)]> db
       ∧ counter_of (RString (py_str_int c)) = Some c.
Proof.
  unfold Redis.incr. destruct (Redis.integer_at db key) as [e|n] eqn:Hn; [done|].
  case_decide as Hmax; [done|]. intros [= <- <-]. exists n.
  assert (Redis.LLONG_MIN ≤ n) as Hmin.
  { unfold Redis.integer_at in Hn. destruct (db !! key) as [[s|]|]; [|done|].
    - destruct (Redis.string2ll s) as [m|] eqn:Hs; [|done].
      apply string2ll_Some in Hs as [_ Hs]. injection Hn as <-. lia.
    - injection Hn as <-. by unfold Redis.LLONG_MIN. }
  split; [done|]. split; [lia|]. split; [done|]. split; [done|].
  simpl. apply string2ll_py_str_int. lia.
Qed.

Lemma integer_at_counter (db : gmap string RedisValue) (key : string) v n m :
  db !! key = Some v → Redis.integer_at db key = inr n → counter_of v = Some m → m = n.
Proof.
  unfold Redis.integer_at. intros ->. destruct v as [s|]; simpl; [|done].
  destruct (Redis.string2ll s); congruence.
Qed.

Lemma counters_grow_refl (db : gmap string RedisValue) : counters_grow db db.
Proof.
  intros k v Hk. exists v. split; [done|]. intros n Hn. exists n. split; [done|lia].
Qed.

Lemma incremented_grow (db db' : gmap string RedisValue) :
  incremented db db' → counters_grow db db'.
Proof.
  intros [->|(key & c & Hincr)]; [apply counters_grow_refl|]. intros k v Hk.
  apply incr_accepted in Hincr as (n & Hn & Hrange & -> & -> & Hc).
  destruct (decide (k = key)) as [->|Hne].
  - rewrite lookup_insert_eq. eexists. split; [done|].
    intros m Hm. rewrite (integer_at_counter _ _ _ _ _ Hk Hn Hm).
    exists (n + 1). split; [done|lia].
  - rewrite lookup_insert_ne by done. by apply counters_grow_refl.
Qed.

Lemma incremented_nonneg (db db' : gmap string RedisValue) :
  incremented db db' → counters_nonneg db → counters_nonneg db'.
Proof.
  intros [->|(key & c & Hincr)] Hinv; [done|].
  apply incr_accepted in Hincr as (n & Hn & Hrange & -> & -> & Hc).
  intros k v'. destruct (decide (k = key)) as [->|Hne].
  - rewrite lookup_insert_eq. intros [= <-]. exists (n + 1). split; [done|].
    unfold Redis.integer_at in Hn.
    destruct (db !! key) as [v|] eqn:Hk; [|injection Hn as <-; lia].
    destruct (Hinv key v Hk) as (m & Hm & Hpos).
    destruct v as [s|]; [|done]. simpl in Hm. rewrite Hm in Hn.
    injection Hn as <-. lia.
  - rewrite lookup_insert_ne by done. apply Hinv.
Qed.

Lemma incremented_created (db db' : gmap string RedisValue) :
  incremented db db' → created_at_one db db'.
Proof.
  intros [->|(key & c & Hincr)] k v' Hk Hk'; [congruence|].
  apply incr_accepted in Hincr as (n & Hn & Hrange & -> & -> & Hc).
  destruct (decide (k = key)) as [->|Hne].
  - rewrite lookup_insert_eq in Hk'. injection Hk' as <-.
    unfold Redis.integer_at in Hn. rewrite Hk in Hn. by injection Hn as <-.
  - rewrite lookup_insert_ne in Hk' by done. congruence.
Qed.

Lemma counters_grow_trans (db1 db2 db3 : gmap string RedisValue) :
  counters_grow db1 db2 → counters_grow db2 db3 → counters_grow db1 db3.
Proof.
  intros H12 H23 k v Hk.
  destruct (H12 k v Hk) as (v2 & Hk2 & Hn2).
  destruct (H23 k v2 Hk2) as (v3 & Hk3 & Hn3).
  exists v3. split; [done|]. intros n Hn.
  destruct (Hn2 n Hn) as (n2 & Hc2 & Hle2).
  destruct (Hn3 n2 Hc2) as (n3 & Hc3 & Hle3).
  exists n3. split; [done|lia].
Qed.

(** An INCR that the server refuses leaves the database as it was. *)
Lemma incr_raises_keeps_db (key : string) (db db' : gmap string RedisValue) e :
  Redis.incr key db = (inl e, db') → db' = db.
Proof.
  unfold Redis.incr. destruct (Redis.integer_at db key); [congruence|].
  case_decide; congruence.
Qed.

(** What one request does to the database: nothing, or one INCR; the INCR
    may have been applied although its reply was lost. *)
Lemma dispatch_incremented (path : string) (w : World) :
  incremented (redis_db w) (redis_db (dispatch_request environ path w).2).
Proof.
  unfold dispatch_request.
  destruct (match_url path) as [[|p|]|]; simpl; [by left| | |by left].
  - destruct (redis_faults w (length (redis_log w))) as [f|] eqn:Hup.
    { rewrite (vote_item_fault p w f) by done. simpl.
      destruct f as [e|e]; simpl; [by left|].
      destruct (Redis.incr p (redis_db w)) as [[e'|c] db'] eqn:Hincr; simpl.
      - left. by eapply incr_raises_keeps_db.
      - right. eauto. }
    rewrite vote_item_sent by done.
    destruct (Redis.incr p (redis_db w)) as [[e|c] db'] eqn:Hincr; simpl.
    + left. by eapply incr_raises_keeps_db.
    + right. eauto.
  - left. apply get_all_keeps_db.
Qed.

Lemma serve_grow (paths : list string) (w : World) :
  counters_grow (redis_db w) (redis_db (serve environ paths w).2)
  ∧ (counters_nonneg (redis_db w) → counters_nonneg (redis_db (serve environ paths w).2)).
Proof.
  revert w. induction paths as [|path rest IH]; intros w.
  - split; [apply counters_grow_refl|done].
  - rewrite serve_cons. simpl.
    destruct (IH (dispatch_request environ path w).2) as [Hgrow Hinv].
    pose proof (dispatch_incremented path w) as Hstep. split.
    + eapply counters_grow_trans; [by apply incremented_grow|done].
    + intros Hw. by apply Hinv, (incremented_nonneg _ _ Hstep).
Qed.

(** C9: counters that are non-negative integers stay so whatever requests
    are served; every key stays in the store and no counter ever goes
    down; a single request changes the store by at most one INCR, and a key
    that it creates starts at 1, that is at 0 plus the increment. *)
Theorem counters_never_decrease (paths : list string) (w : World) :
  (counters_nonneg (redis_db w) →
   counters_nonneg (redis_db (serve environ paths w).2))
  ∧ counters_grow (redis_db w) (redis_db (serve environ paths w).2)
  ∧ ∀ path,
      incremented (redis_db w) (redis_db (dispatch_request environ path w).2)
      ∧ created_at_one (redis_db w) (redis_db (dispatch_request environ path w).2).
Proof.
  destruct (serve_grow paths w) as [Hgrow Hinv].
  split; [done|]. split; [done|]. intros path.
  pose proof (dispatch_incremented path w) as Hstep.
  split; [done|by apply incremented_created].
Qed.

End AppFacts.

(** ** The statements on concrete worlds *)

(** The scenario of the specification: a fresh store, two votes for apple,
    then the listing. *)
Example fresh_store_scenario :
  (serve ∅ ["/vote/apple"; "/vote/apple"; "/list"] Scenario.fresh).1
  = [Return (mkResponse (JsonVote "success" 1 "v1") 200);
     Return (mkResponse (JsonVote "success" 2 "v1") 200);
     Return (mkResponse (JsonList {["apple" := 2]} "v1") 200)].
Proof. vm_compute. reflexivity. Qed.

(** The store is down for two commands and then comes back: two 500
    answers, then a vote that counts. *)
Example store_recovers :
  (serve ∅ ["/vote/apple"; "/list"; "/vote/apple"] (Scenario.down_for 2)).1
  = [Return (mkResponse (JsonError (py_str_exc Scenario.refused)) 500);
     Return (mkResponse (JsonError (py_str_exc Scenario.refused)) 500);
     Return (mkResponse (JsonVote "success" 1 "v1") 200)].
Proof. vm_compute. reflexivity. Qed.

(** The notifier is configured and every post times out: the vote counts
    all the same, and the post that was tried carries the tagged text. *)
Example vote_with_dead_network :
  (vote_item Scenario.notifying "apple" Scenario.offline_net).1
  = Return (mkResponse (JsonVote "success" 42 "v2") 200)
  ∧ http_log (vote_item Scenario.notifying "apple" Scenario.offline_net).2
    = [mkHttpPost "https://api.telegram.org/bot123:abc/sendMessage" "-1001"
         "[v2] 🔥 apple 獲得一票！目前總票數: 42" 1].
Proof. split; vm_compute; reflexivity. Qed.

(** C1 as written fails: on a fresh store the counter of apple is 0 before
    the first vote, and the two votes answer 1 and 2, not 0 and 1. *)
Lemma vote_twice_fresh_counts_one_two :
  Redis.integer_at (redis_db Scenario.fresh) "apple" = inr 0
  ∧ (serve ∅ ["/vote/apple"; "/vote/apple"] Scenario.fresh).1
    = [Return (mkResponse (JsonVote "success" 1 "v1") 200);
       Return (mkResponse (JsonVote "success" 2 "v1") 200)]
  ∧ (serve ∅ ["/vote/apple"; "/vote/apple"] Scenario.fresh).1
    ≠ [Return (mkResponse (JsonVote "success" 0 "v1") 200);
       Return (mkResponse (JsonVote "success" 1 "v1") 200)].
Proof.
  split; [reflexivity|]. split; [vm_compute; reflexivity|].
  vm_compute. discriminate.
Qed.

Lemma vote_twice_counts_witness :
  valid_product_name "apple" = true
  ∧ Redis.integer_at (redis_db Scenario.offline_net) "apple" = inr 41
  ∧ 41 + 1 < Redis.LLONG_MAX
  ∧ redis_reachable Scenario.offline_net 2
  ∧ ∃ w', serve Scenario.notifying ["/vote/" +:+ "apple"; "/vote/" +:+ "apple"]
            Scenario.offline_net
          = ([Return (mkResponse (JsonVote "success" (41 + 1)
                        (APP_VERSION Scenario.notifying)) 200);
              Return (mkResponse (JsonVote "success" (41 + 2)
                        (APP_VERSION Scenario.notifying)) 200)], w').
Proof.
  assert (redis_reachable Scenario.offline_net 2) as Hup by (intros i Hi; reflexivity).
  split; [reflexivity|]. split; [reflexivity|]. split; [reflexivity|]. split; [exact Hup|].
  apply (vote_twice_counts Scenario.notifying "apple" Scenario.offline_net 41);
    [reflexivity|reflexivity|reflexivity|exact Hup].
Defined.

Lemma first_vote_creates_counter_witness :
  redis_db Scenario.fresh !! "banana" = None
  ∧ redis_faults Scenario.fresh (length (redis_log Scenario.fresh)) = None
  ∧ ∃ w', vote_item ∅ "banana" Scenario.fresh
          = (Return (mkResponse (JsonVote "success" 1 (APP_VERSION ∅)) 200), w')
        ∧ Redis.integer_at (redis_db Scenario.fresh) "banana" = inr 0
        ∧ redis_db w' = <["banana" := RString "1"]> (redis_db Scenario.fresh)
        ∧ redis_log w' = redis_log Scenario.fresh ++ [INCR "banana"].
Proof.
  split; [reflexivity|]. split; [reflexivity|].
  apply (first_vote_creates_counter ∅ "banana" Scenario.fresh); reflexivity.
Defined.

(** C3 as written fails: with the text abc stored under x the listing
    answers 500 with the error of [int], not 200 with x shown as 0. *)
Lemma listing_of_text_value_is_500 :
  redis_db Scenario.with_text = {["x" := RString "abc"]}
  ∧ redis_reachable Scenario.with_text 2
  ∧ (get_all ∅ Scenario.with_text).1
    = Return (mkResponse (JsonError "invalid literal for int() with base 10: 'abc'") 500)
  ∧ (get_all ∅ Scenario.with_text).1
    ≠ Return (mkResponse (JsonList {["x" := 0]} "v1") 200).
Proof.
  split; [reflexivity|]. split; [intros i Hi; reflexivity|].
  split; [vm_compute; reflexivity|]. vm_compute. discriminate.
Qed.

(** A key that is not UTF-8 makes the listing fail as well: the client
    cannot decode the reply of KEYS. *)
Example listing_of_binary_key_is_500 :
  (get_all ∅ Cases.with_binary_key).1
  = Return (mkResponse
              (JsonError "'utf-8' codec can't decode byte 0xff in position 0: invalid start byte")
              500).
Proof. vm_compute. reflexivity. Qed.

(** Numbers written with the decimal digits of other scripts are numbers
    for [int], and are listed. *)
Example listing_of_other_digits :
  (get_all ∅ Cases.with_other_digits).1
  = Return (mkResponse (JsonList (<["apple" := 3]> {["banana" := 12]}) "v1") 200).
Proof. vm_compute. reflexivity. Qed.

Lemma get_all_lists_counters_witness :
  redis_reachable Scenario.with_blank (S (size (redis_db Scenario.with_blank)))
  ∧ (∀ key v, redis_db Scenario.with_blank !! key = Some v →
       utf8_text key ∧ is_Some (listed v))
  ∧ (∃ w', get_all ∅ Scenario.with_blank
           = (Return (mkResponse
                        (JsonList (omap listed (redis_db Scenario.with_blank)) (APP_VERSION ∅))
                        200), w')
           ∧ redis_db w' = redis_db Scenario.with_blank)
  ∧ (∀ key, redis_db Scenario.with_blank !! key = None →
       ∃ w', final_product_dictionary [key] ∅ Scenario.with_blank
             = (Return {[key := 0]}, w')).
Proof.
  assert (redis_reachable Scenario.with_blank (S (size (redis_db Scenario.with_blank))))
    as Hup by (intros i Hi; reflexivity).
  assert (∀ key v, redis_db Scenario.with_blank !! key = Some v →
            utf8_text key ∧ is_Some (listed v)) as Hvalues.
  { apply readable_store_listed. refine (bool_decide_unpack _ _). vm_compute. exact I. }
  split; [exact Hup|]. split; [exact Hvalues|].
  exact (get_all_lists_counters ∅ Scenario.with_blank Hup Hvalues).
Defined.

(** What the listing shows for the empty value and for the padded number. *)
Example listing_of_blank_value :
  omap listed (redis_db Scenario.with_blank) = <["apple" := 0]> {["banana" := 7]}.
Proof. vm_compute. reflexivity. Qed.


(** The connection drops in the middle of a listing, after KEYS and one
    GET: the answer is the 500 of that failure. *)
Example listing_dropped_midway :
  (get_all ∅ Cases.drops_midway).1
  = Return (mkResponse (JsonError "Timeout reading from socket") 500)
  ∧ redis_log (get_all ∅ Cases.drops_midway).2 = [KEYS_all; GET "apple"; GET "banana"].
Proof. split; vm_compute; reflexivity. Qed.


Lemma notifier_never_raises_witness :
  (TELEGRAM_TOKEN ∅ = "" ∨ TELEGRAM_CHAT_ID ∅ = "")
  ∧ Redis.integer_at (redis_db Scenario.offline_net) "apple" = inr 41
  ∧ 41 < Redis.LLONG_MAX
  ∧ redis_faults Scenario.offline_net (length (redis_log Scenario.offline_net)) = None
  ∧ send_telegram_notification ∅ "hello" Scenario.offline_net
    = (Return tt, Scenario.offline_net)
  ∧ (vote_item ∅ "apple" Scenario.offline_net).1
    = Return (mkResponse (JsonVote "success" (41 + 1) (APP_VERSION ∅)) 200).
Proof.
  destruct (notifier_never_raises ∅ "hello" Scenario.offline_net) as (_ & Hnoop & Hvote).
  split; [left; reflexivity|]. split; [reflexivity|]. split; [reflexivity|].
  split; [reflexivity|]. split.
  - apply Hnoop. left. reflexivity.
  - apply (Hvote "apple" 41); reflexivity.
Defined.

Lemma notification_text_prefixed_witness :
  TELEGRAM_TOKEN Scenario.notifying ≠ ""
  ∧ TELEGRAM_CHAT_ID Scenario.notifying ≠ ""
  ∧ ∃ posts,
      http_log (send_telegram_notification Scenario.notifying "hello" Scenario.offline_net).2
      = http_log Scenario.offline_net ++ posts
      ∧ Forall (λ post, post_text post
                        = "[" +:+ APP_VERSION Scenario.notifying +:+ "] " +:+ "hello"
                        ∧ post_chat_id post = TELEGRAM_CHAT_ID Scenario.notifying) posts
      ∧ length posts = 1%nat.
Proof.
  assert (TELEGRAM_TOKEN Scenario.notifying ≠ "") as Htoken by (vm_compute; discriminate).
  assert (TELEGRAM_CHAT_ID Scenario.notifying ≠ "") as Hchat by (vm_compute; discriminate).
  split; [exact Htoken|]. split; [exact Hchat|].
  destruct (notification_text_prefixed Scenario.notifying "hello" Scenario.offline_net)
    as (posts & Hlog & Htext & _ & Hone).
  exists posts. split; [exact Hlog|]. split; [exact Htext|]. exact (Hone Htoken Hchat).
Defined.

Lemma counters_never_decrease_witness :
  counters_nonneg (redis_db Scenario.offline_net)
  ∧ counters_nonneg
      (redis_db (serve ∅ ["/vote/apple"; "/list"; "/vote/kiwi"] Scenario.offline_net).2)
  ∧ counters_grow (redis_db Scenario.offline_net)
      (redis_db (serve ∅ ["/vote/apple"; "/list"; "/vote/kiwi"] Scenario.offline_net).2).
Proof.
  assert (counters_nonneg (redis_db Scenario.offline_net)) as Hinv.
  { intros key v.
    change (redis_db Scenario.offline_net)
      with ({["apple" := RString "41"]} : gmap string RedisValue).
    intros [<- <-]%lookup_singleton_Some. exists 41. split; [reflexivity|lia]. }
  destruct (counters_never_decrease ∅ ["/vote/apple"; "/list"; "/vote/kiwi"]
              Scenario.offline_net) as (Hkeep & Hgrow & _).
  split; [exact Hinv|]. split; [exact (Hkeep Hinv)|exact Hgrow].
Defined.

Lemma vote_success_single_increment_witness :
  vote_item Scenario.notifying "apple" Scenario.offline_net
  = (Return (mkResponse (JsonVote "success" 42 "v2") 200),
     (vote_item Scenario.notifying "apple" Scenario.offline_net).2)
  ∧ status_code (mkResponse (JsonVote "success" 42 "v2") 200) = 200
  ∧ ∃ c, mkResponse (JsonVote "success" 42 "v2") 200
         = mkResponse (JsonVote "success" c (APP_VERSION Scenario.notifying)) 200
       ∧ redis_log (vote_item Scenario.notifying "apple" Scenario.offline_net).2
         = redis_log Scenario.offline_net ++ [INCR "apple"]
       ∧ Redis.incr "apple" (redis_db Scenario.offline_net)
         = (inr c, redis_db (vote_item Scenario.notifying "apple" Scenario.offline_net).2)
       ∧ redis_db (vote_item Scenario.notifying "apple" Scenario.offline_net).2 !! "apple"
         = Some (RString (py_str_int c))
       ∧ http_log (vote_item Scenario.notifying "apple" Scenario.offline_net).2
         = http_log Scenario.offline_net
           ++ posts_for Scenario.notifying (vote_message "apple" c)
       ∧ Forall (λ post, post_text post
                         = "[" +:+ APP_VERSION Scenario.notifying +:+ "] 🔥 " +:+ "apple"
                           +:+ " 獲得一票！目前總票數: " +:+ py_str_int c)
           (posts_for Scenario.notifying (vote_message "apple" c)).
Proof.
  assert (vote_item Scenario.notifying "apple" Scenario.offline_net
          = (Return (mkResponse (JsonVote "success" 42 "v2") 200),
             (vote_item Scenario.notifying "apple" Scenario.offline_net).2)) as Hrun.
  { vm_compute. reflexivity. }
  split; [exact Hrun|]. split; [reflexivity|].
  exact (vote_success_single_increment Scenario.notifying "apple" Scenario.offline_net _ _
           Hrun eq_refl).
Defined.

(** * Further properties *)

(** ** [str] and [int] on integers *)

Lemma length_string_of_uint (d : uint) :
  String.length (NilEmpty.string_of_uint d) = nb_digits d.
Proof. induction d; simpl; by rewrite ?IHd. Qed.

Lemma span_body_string_of_uint (d : uint) :
  PyInt.span_body (NilEmpty.string_of_uint d) = (NilEmpty.string_of_uint d, "").
Proof. induction d; simpl; by rewrite ?IHd. Qed.

Lemma digits_string_of_uint (d : uint) (prev : bool) :
  d ≠ Nil ∨ prev = true →
  PyInt.digits (NilEmpty.string_of_uint d) prev = Some (NilEmpty.string_of_uint d).
Proof.
  revert prev. induction d; intros prev Hd; simpl;
    try (rewrite IHd by (by right); done).
  by destruct Hd as [?| ->].
Qed.

Lemma of_uint_acc_lower (d : uint) (acc : positive) :
  Z.pos acc * 10 ^ Z.of_nat (nb_digits d) ≤ Z.pos (Pos.of_uint_acc d acc).
Proof.
  revert acc. induction d; intros acc; simpl nb_digits; simpl Pos.of_uint_acc;
    [simpl; lia|..];
    rewrite Nat2Z.inj_succ, Z.pow_succ_r by lia;
    (etrans; [|apply IHd]);
    pose proof (Z.pow_nonneg 10 (Z.of_nat (nb_digits d)) ltac:(lia));
    nia.
Qed.

Lemma of_uint_lower (d : uint) (p : positive) :
  Pos.of_uint d = N.pos p →
  10 ^ (Z.of_nat (nb_digits (nzhead d)) - 1) ≤ Z.pos p.
Proof.
  induction d; simpl; intros Hp; try done; try (by apply IHd);
    injection Hp as <-;
    replace (Z.of_nat (S (nb_digits d)) - 1) with (Z.of_nat (nb_digits d)) by lia;
    (etrans; [|apply of_uint_acc_lower]);
    pose proof (Z.pow_nonneg 10 (Z.of_nat (nb_digits d)) ltac:(lia)); lia.
Qed.

Lemma nzhead_Nil_of_uint (d : uint) : nzhead d = Nil → Pos.of_uint d = 0%N.
Proof. induction d; simpl; intros Hd; try done. by apply IHd. Qed.

(** A positive number below [10 ^ k] prints with at most [k] digits. *)
Lemma nb_digits_to_uint (p : positive) (k : nat) :
  Z.pos p < 10 ^ Z.of_nat k → (nb_digits (Pos.to_uint p) ≤ k)%nat.
Proof.
  intros Hp. pose proof (Unsigned.of_to p) as Hof.
  pose proof (Unsigned.to_of (Pos.to_uint p)) as Hnorm.
  rewrite Hof in Hnorm. simpl in Hnorm.
  pose proof (of_uint_lower _ _ Hof) as Hlow.
  assert (nzhead (Pos.to_uint p) = Pos.to_uint p) as Hhead.
  { unfold unorm in Hnorm. destruct (nzhead (Pos.to_uint p)) eqn:Hnz; try done.
    apply nzhead_Nil_of_uint in Hnz. congruence. }
  rewrite Hhead in Hlow.
  destruct (decide (nb_digits (Pos.to_uint p) ≤ k)%nat) as [|Hbig]; [done|].
  assert (10 ^ Z.of_nat k ≤ 10 ^ (Z.of_nat (nb_digits (Pos.to_uint p)) - 1)).
  { apply Z.pow_le_mono_r; lia. }
  lia.
Qed.

Lemma lstrip_string_of_uint (d : uint) :
  PyInt.lstrip (NilEmpty.string_of_uint d) = NilEmpty.string_of_uint d.
Proof. by destruct d. Qed.

Lemma sign_string_of_uint (d : uint) :
  d ≠ Nil →
  match NilEmpty.string_of_uint d with
  | String "-" u => (true, u)
  | String "+" u => (false, u)
  | _ => (false, NilEmpty.string_of_uint d)
  end = (false, NilEmpty.string_of_uint d).
Proof. by destruct d. Qed.

(** A run of ASCII digits is UTF-8, and [int] reads it as it stands. *)
Lemma decode_string_of_uint (d : uint) (pos : nat) :
  ∃ chars, Utf8.decode pos (NilEmpty.string_of_uint d) = inr chars
           ∧ PyInt.to_ascii chars = NilEmpty.string_of_uint d.
Proof.
  revert pos. induction d as [|d IH|d IH|d IH|d IH|d IH|d IH|d IH|d IH|d IH|d IH];
    intros pos; [by exists []|..];
    destruct (IH (pos + 1)%nat) as (chars & Hdec & Hascii);
    cbn [NilEmpty.string_of_uint Utf8.decode]; rewrite Hdec;
    eexists; (split; [reflexivity|]); cbn; by rewrite Hascii.
Qed.

Lemma decode_signed_digits (d : uint) (negative : bool) :
  ∃ chars,
    Utf8.decode 0 ((if negative then "-" else "") +:+ NilEmpty.string_of_uint d) = inr chars
    ∧ PyInt.to_ascii chars = (if negative then "-" else "") +:+ NilEmpty.string_of_uint d.
Proof.
  destruct negative.
  - destruct (decode_string_of_uint d 1) as (chars & Hdec & Hascii).
    change ("-" +:+ NilEmpty.string_of_uint d)
      with (String "-" (NilEmpty.string_of_uint d)).
    cbn [Utf8.decode]. change (0 + 1)%nat with 1%nat. rewrite Hdec.
    eexists. split; [reflexivity|]. cbn. by rewrite Hascii.
  - change ("" +:+ NilEmpty.string_of_uint d) with (NilEmpty.string_of_uint d).
    apply decode_string_of_uint.
Qed.

(** [int] on a run of decimal digits, within the digit limit. *)
Lemma py_int_of_digits (d : uint) (negative : bool) :
  d ≠ Nil →
  (nb_digits d ≤ PyInt.int_max_str_digits)%nat →
  py_int_of_str ((if negative then "-" else "") +:+ NilEmpty.string_of_uint d)
  = inr (if negative then - Z.of_uint d else Z.of_uint d).
Proof.
  intros Hd Hlen. unfold py_int_of_str.
  destruct (decode_signed_digits d negative) as (chars & -> & ->).
  destruct negative.
  - change ("-" +:+ NilEmpty.string_of_uint d)
      with (String "-" (NilEmpty.string_of_uint d)).
    cbn [PyInt.lstrip PyInt.is_space].
    rewrite span_body_string_of_uint, digits_string_of_uint by (by left).
    rewrite length_string_of_uint, decide_False by lia.
    by rewrite NilEmpty.usu.
  - change ("" +:+ NilEmpty.string_of_uint d) with (NilEmpty.string_of_uint d).
    cbv zeta. rewrite lstrip_string_of_uint, sign_string_of_uint by done.
    rewrite span_body_string_of_uint, digits_string_of_uint by (by left).
    rewrite length_string_of_uint, decide_False by lia.
    by rewrite NilEmpty.usu.
Qed.

(** Round trip: [int(str(n)) = n] for every integer within the digit
    limit. *)
Lemma py_int_of_py_str_int (n : Z) :
  Z.abs n < 10 ^ Z.of_nat PyInt.int_max_str_digits →
  py_int_of_str (py_str_int n) = inr n.
Proof.
  intros Hn. destruct n as [|p|p]; [done|..]; unfold py_str_int; simpl Z.to_int.
  - pose proof (Unsigned.to_uint_nonnil p) as Hd.
    pose proof (nb_digits_to_uint p _ Hn) as Hlen.
    pose proof (py_int_of_digits (Pos.to_uint p) false Hd Hlen) as Hint.
    change (py_int_of_str (NilEmpty.string_of_uint (Pos.to_uint p))
            = inr (Z.of_uint (Pos.to_uint p))) in Hint.
    clear Hn Hlen. unfold NilZero.string_of_int, NilZero.string_of_uint.
    destruct (Pos.to_uint p) eqn:Hp; try done;
      rewrite Hint; f_equal; rewrite <-Hp;
      change (Z.of_uint (Pos.to_uint p)) with (Z.of_int (Z.to_int (Z.pos p)));
      apply DecimalZ.of_to.
  - pose proof (Unsigned.to_uint_nonnil p) as Hd.
    pose proof (nb_digits_to_uint p _ Hn) as Hlen.
    pose proof (py_int_of_digits (Pos.to_uint p) true Hd Hlen) as Hint.
    change (py_int_of_str (String "-" (NilEmpty.string_of_uint (Pos.to_uint p)))
            = inr (- Z.of_uint (Pos.to_uint p))) in Hint.
    clear Hn Hlen. unfold NilZero.string_of_int, NilZero.string_of_uint.
    destruct (Pos.to_uint p) eqn:Hp; try done;
      rewrite Hint; f_equal; rewrite <-Hp;
      change (- Z.of_uint (Pos.to_uint p)) with (Z.of_int (Z.to_int (Z.neg p)));
      apply DecimalZ.of_to.
Qed.

Lemma int64_within_digit_limit (c : Z) :
  Redis.LLONG_MIN ≤ c ≤ Redis.LLONG_MAX →
  Z.abs c < 10 ^ Z.of_nat PyInt.int_max_str_digits.
Proof.
  unfold Redis.LLONG_MIN, Redis.LLONG_MAX. intros Hc.
  assert (9223372036854775808 < 10 ^ Z.of_nat PyInt.int_max_str_digits) as Hbig.
  { apply Z.ltb_lt. vm_compute. reflexivity. }
  revert Hbig. generalize (10 ^ Z.of_nat PyInt.int_max_str_digits). lia.
Qed.

(** What the listing shows for a counter as the server stores it. *)
Lemma listed_py_str_int (c : Z) :
  Redis.LLONG_MIN ≤ c ≤ Redis.LLONG_MAX → listed (RString (py_str_int c)) = Some c.
Proof.
  intros Hc. pose proof (py_int_of_py_str_int c (int64_within_digit_limit c Hc)) as Hint.
  unfold listed. destruct (String.eqb_spec (py_str_int c) "") as [Hempty|_].
  - by rewrite Hempty in Hint.
  - by rewrite Hint.
Qed.

Section MoreFacts.

Variable environ : gmap string string.

(** ** More on voting *)

(** X1: a vote that is not answered with 200 is answered with 500 and an
    error object, and no notification was attempted for it: the notifier is
    called only once the increment has returned. *)
Theorem failed_vote_sends_nothing (p : string) (w w' : World) (r : Response) :
  vote_item environ p w = (Return r, w') →
  status_code r ≠ 200 →
  (∃ error, r = mkResponse (JsonError error) 500)
  ∧ http_log w' = http_log w.
Proof.
  intros Hrun Hfail.
  destruct (redis_faults w (length (redis_log w))) as [f|] eqn:Hup.
  { rewrite (vote_item_fault environ p w f) in Hrun by done.
    injection Hrun as <- <-. eauto. }
  rewrite vote_item_sent in Hrun by done.
  destruct (Redis.incr p (redis_db w)) as [[e|c] db'] eqn:Hincr.
  - injection Hrun as <- <-. eauto.
  - injection Hrun as <- <-. done.
Qed.

Lemma reachable_with_posts (posts : list HttpPost) (w : World) (k : nat) :
  redis_reachable w k → redis_reachable (with_posts posts w) k.
Proof. done. Qed.

(** X3: [k] votes in a row for a product whose counter is [n] are answered
    with [n + 1], [n + 2], ..., [n + k], and leave the counter at
    [n + k]. *)
Theorem votes_count_up (k : nat) (p : string) (w : World) (n : Z) :
  valid_product_name p = true →
  Redis.integer_at (redis_db w) p = inr n →
  n + Z.of_nat k ≤ Redis.LLONG_MAX →
  redis_reachable w k →
  (serve environ (replicate k ("/vote/" +:+ p)) w).1
  = (λ c, Return (mkResponse (JsonVote "success" c (APP_VERSION environ)) 200))
      <$> seqZ (n + 1) (Z.of_nat k)
  ∧ Redis.integer_at (redis_db (serve environ (replicate k ("/vote/" +:+ p)) w).2) p
    = inr (n + Z.of_nat k).
Proof.
  intros Hp. revert w n. induction k as [|k IH]; intros w n Hn Hmax Hup.
  - simpl. rewrite Z.add_0_r. done.
  - destruct (reachable_step w k Hup) as [Hup0 Hrest].
    cbn [replicate]. rewrite serve_cons, dispatch_vote by done.
    rewrite (vote_item_incremented environ p w n) by (done || lia).
    cbn [fst snd].
    destruct (IH (with_posts (posts_for environ (vote_message p (n + 1)))
                    (with_command (INCR p)
                       (<[p := RString (py_str_int (n + 1))]> (redis_db w)) w))
                (n + 1)) as [Hanswers Hcounter].
    { simpl. apply integer_at_after_incr; [done|lia]. }
    { lia. }
    { apply reachable_with_posts, Hrest. }
    rewrite Hanswers, Hcounter. split.
    + rewrite (seqZ_cons (n + 1)) by lia. simpl. do 3 f_equal; lia.
    + f_equal. lia.
Qed.

(** An INCR leaves every other key as it was. *)
Lemma incr_other_key (key k : string) (db : gmap string RedisValue) :
  k ≠ key → (Redis.incr key db).2 !! k = db !! k.
Proof.
  intros Hne. destruct (Redis.incr key db) as [[e|c] db'] eqn:Hincr; simpl.
  - by apply incr_raises_keeps_db in Hincr as ->.
  - apply incr_accepted in Hincr as (n & _ & _ & _ & -> & _).
    by rewrite lookup_insert_ne.
Qed.

(** X4: the value stored under a key changes only through the vote view
    called for that very key: the home page, the listing and the votes for
    other products leave it as it was, whatever their outcome. *)
Theorem counter_changes_only_by_own_vote (ep : Endpoint) (p : string) (w : World) :
  redis_db (view environ ep w).2 !! p ≠ redis_db w !! p →
  ep = EP_vote_item p.
Proof.
  intros Hchanged. destruct ep as [|q|]; simpl in Hchanged; [done| |].
  - destruct (decide (q = p)) as [->|Hne]; [done|].
    exfalso. apply Hchanged.
    destruct (redis_faults w (length (redis_log w))) as [f|] eqn:Hup.
    { rewrite (vote_item_fault environ q w f) by done. simpl.
      destruct f; simpl; [done|]. by apply incr_other_key. }
    rewrite vote_item_sent by done.
    pose proof (incr_other_key q p (redis_db w) ltac:(done)) as Hother.
    by destruct (Redis.incr q (redis_db w)) as [[e|c] db'].
  - by rewrite get_all_keeps_db in Hchanged.
Qed.

(** ** More on the listing *)

(** What the comprehension of [get_all] sends and leaves: one GET for each
    key up to the point where it stops, in the order of the keys and for
    all of them when it returns; nothing is posted. *)
Lemma final_product_dictionary_trace (keys : list string) :
  ∀ (acc : gmap string Z) (w : World),
    ∃ k, (k ≤ length keys)%nat
         ∧ redis_log (final_product_dictionary keys acc w).2
           = redis_log w ++ (GET <$> take k keys)
         ∧ http_log (final_product_dictionary keys acc w).2 = http_log w
         ∧ ((∃ data, (final_product_dictionary keys acc w).1 = Return data) →
            k = length keys).
Proof.
  induction keys as [|key rest IH]; intros acc w.
  - exists 0%nat. simpl. rewrite app_nil_r. by eauto.
  - cbn [final_product_dictionary]. rewrite run_bind. unfold redis_client_get.
    rewrite run_bind.
    assert (∀ (e : PyException) w1,
              redis_log w1 = redis_log w ++ [GET key] → http_log w1 = http_log w →
              ∃ k, (k ≤ length (key :: rest))%nat
                   ∧ redis_log w1 = redis_log w ++ (GET <$> take k (key :: rest))
                   ∧ http_log w1 = http_log w
                   ∧ ((∃ data : gmap string Z, Raise e = Return data) →
                      k = length (key :: rest))) as Hstop.
    { intros e w1 Hlog Hposts. exists 1%nat. simpl. split; [lia|].
      split; [done|]. split; [done|]. by intros [data ?]. }
    destruct (redis_faults w (length (redis_log w))) as [f|] eqn:Hup.
    { rewrite (redis_call_fault _ _ _ f) by done.
      exact (Hstop _ (with_command (GET key) _ w) eq_refl eq_refl). }
    rewrite redis_call_sent by done.
    destruct (Redis.get key (redis_db w)) as [[e|v] db'] eqn:Hget; simpl.
    { exact (Hstop e (with_command (GET key) db' w) eq_refl eq_refl). }
    destruct (decode_value v) as [e|v']; simpl.
    { exact (Hstop e (with_command (GET key) db' w) eq_refl eq_refl). }
    rewrite run_bind. unfold lift_sum at 1.
    destruct (py_int (py_or v' (PyInt 0))) as [e|n]; simpl.
    { exact (Hstop e (with_command (GET key) db' w) eq_refl eq_refl). }
    destruct (IH (<[key := n]> acc) (with_command (GET key) db' w))
      as (k & Hk & Hlog & Hposts & Hall).
    exists (S k). simpl in *. split; [lia|]. split.
    { rewrite Hlog, <-app_assoc. done. }
    split; [done|]. intros Hret. by rewrite Hall.
Qed.

Lemma get_all_trace (w : World) :
  ∃ k, (k ≤ size (redis_db w))%nat
       ∧ redis_log (get_all environ w).2
         = redis_log w ++ KEYS_all :: (GET <$> take k (keys_now w))
       ∧ http_log (get_all environ w).2 = http_log w
       ∧ (∀ r, (get_all environ w).1 = Return r → status_code r = 200 →
          k = size (redis_db w)).
Proof.
  rewrite get_all_run. unfold get_all_body. rewrite run_bind.
  destruct (redis_faults w (length (redis_log w))) as [f|] eqn:Hup.
  { unfold redis_client_keys_all. rewrite run_bind.
    rewrite (redis_call_fault _ _ _ f) by done. exists 0%nat. simpl.
    split; [lia|]. split; [done|]. split; [done|]. by intros r [= <-]. }
  rewrite keys_all_sent by done.
  destruct (decode_keys (keys_now w)) as [e|keys] eqn:Hkeys; simpl.
  { exists 0%nat. simpl. split; [lia|]. split; [done|]. split; [done|].
    by intros r [= <-]. }
  apply decode_keys_inr in Hkeys as [-> _]. rewrite run_bind.
  destruct (final_product_dictionary_trace (keys_now w) ∅
              (with_command KEYS_all (redis_db w) w)) as (k & Hk & Hlog & Hposts & Hall).
  unfold keys_now in Hk, Hall. rewrite length_key_names in Hk, Hall.
  exists k. split; [done|].
  destruct (final_product_dictionary _ _ _) as [[data|e] w'] eqn:Hrun; simpl in *.
  - rewrite Hlog, <-app_assoc. split; [done|]. split; [done|]. intros _ _ _. eauto.
  - rewrite Hlog, <-app_assoc. split; [done|]. split; [done|]. by intros r [= <-].
Qed.

(** X6: the listing never writes: whatever the state of the store and of
    the network, and whatever it answers, the database is as before and no
    post is attempted. *)
Theorem get_all_never_writes (w : World) :
  redis_db (get_all environ w).2 = redis_db w
  ∧ http_log (get_all environ w).2 = http_log w
  ∧ redis_faults (get_all environ w).2 = redis_faults w.
Proof.
  split; [apply get_all_keeps_db|]. split.
  - by destruct (get_all_trace w) as (k & _ & _ & Hposts & _).
  - rewrite get_all_run. destruct (reads_only_get_all_body environ w) as (_ & Hf & _).
    by destruct (get_all_body environ w) as [[r|e] w'].
Qed.


(** X7: a vote followed by the listing, the product name and the other keys
    being UTF-8: the listing shows the product with the very count the
    vote returned, and every other key as it would have been shown before
    the vote. *)
Theorem list_after_vote (p : string) (w : World) (n : Z) :
  valid_product_name p = true →
  utf8_text p →
  Redis.integer_at (redis_db w) p = inr n →
  n < Redis.LLONG_MAX →
  redis_reachable w (3 + size (redis_db w)) →
  (∀ key v, key ≠ p → redis_db w !! key = Some v → utf8_text key ∧ is_Some (listed v)) →
  ∃ w', serve environ ["/vote/" +:+ p; "/list"] w
        = ([Return (mkResponse (JsonVote "success" (n + 1) (APP_VERSION environ)) 200);
            Return (mkResponse
                      (JsonList (<[p := n + 1]> (omap listed (redis_db w)))
                         (APP_VERSION environ)) 200)],
           w').
Proof.
  intros Hp Htext Hn Hmax Hup Hvalues.
  destruct (reachable_step w _ Hup) as [Hup0 Hrest].
  assert (Redis.incr p (redis_db w)
          = (inr (n + 1), <[p := RString (py_str_int (n + 1))]> (redis_db w))) as Hincr.
  { unfold Redis.incr. rewrite Hn. by rewrite decide_False by lia. }
  apply incr_accepted in Hincr as (m & Hm & Hrange & Hc & _).
  assert (m = n) as -> by (rewrite Hn in Hm; by injection Hm).
  assert (listed (RString (py_str_int (n + 1))) = Some (n + 1)) as Hshown.
  { apply listed_py_str_int. lia. }
  rewrite serve_cons, dispatch_vote by done.
  rewrite (vote_item_incremented environ p w n) by done. cbn [fst snd].
  set (w1 := with_posts _ _).
  destruct (get_all_listed environ w1) as (w' & Hlist & _).
  { subst w1. apply reachable_with_posts. simpl.
    intros i Hi. apply (Hrest (INCR p)).
    rewrite map_size_insert in Hi.
    destruct (redis_db w !! p); simpl in *; unfold id in *; lia. }
  { subst w1. simpl. intros key v. destruct (decide (key = p)) as [->|Hne].
    - rewrite lookup_insert_eq. intros [= <-]. by rewrite Hshown.
    - rewrite lookup_insert_ne by done. by apply Hvalues. }
  exists w'. cbn [serve]. change (dispatch_request environ "/list" w1) with (get_all environ w1).
  rewrite Hlist. subst w1. simpl.
  by rewrite (omap_insert_Some _ _ _ _ (n + 1)).
Qed.

(** ** The answers of the routes *)

(** X8: every view returns, and its answer has the shape of its route: the
    home route gives the page under 200; the vote and list routes give
    either their success object with the version tag under 200, or an error
    object under 500. *)
Theorem view_answer_shape (ep : Endpoint) (w : World) :
  ∃ r, (view environ ep w).1 = Return r ∧ answer_shape environ ep r.
Proof.
  destruct ep as [|p|]; simpl.
  - by eexists.
  - destruct (redis_faults w (length (redis_log w))) as [e|] eqn:Hup.
    { rewrite (vote_item_fault environ p w e) by done. eexists. split; [done|]. eauto. }
    rewrite vote_item_sent by done.
    destruct (Redis.incr p (redis_db w)) as [[e|c] db'];
      (eexists; split; [done|]); eauto.
  - rewrite get_all_run. unfold get_all_body.
    rewrite run_bind. destruct (redis_client_keys_all w) as [[keys|e] w1]; simpl.
    + rewrite run_bind. destruct (final_product_dictionary keys ∅ w1) as [[data|e] w2];
        (eexists; split; [done|]); eauto.
    + eexists. split; [done|]. eauto.
Qed.

(** ** The page and the routes *)

(** X11: the information line of the page shows the address of the store
    and then the name of the pod, taken from HOSTNAME; when HOSTNAME is not
    set the pod is shown as local. *)
Theorem root_page_info_line :
  Str.contains (html_content environ)
    (">後端資料庫: " +:+ redis_host_address environ +:+ " | Pod ID: "
     +:+ os_environ_get environ "HOSTNAME" "local")
  ∧ (environ !! "HOSTNAME" = None →
     Str.contains (html_content environ)
       (">後端資料庫: " +:+ redis_host_address environ +:+ " | Pod ID: local")).
Proof.
  assert (∀ a b c d rest : string,
            Str.contains (a +:+ b +:+ c +:+ d +:+ rest) (a +:+ b +:+ c +:+ d)) as Hfour.
  { intros a b c d rest. exists "", rest. by rewrite !append_assoc. }
  assert (Str.contains (html_content environ)
            (">後端資料庫: " +:+ redis_host_address environ +:+ " | Pod ID: "
             +:+ os_environ_get environ "HOSTNAME" "local")) as Hline.
  { unfold html_content. repeat first [apply Hfour | apply contains_skip]. }
  split; [done|]. intros Hunset.
  unfold os_environ_get in Hline. rewrite Hunset in Hline. simpl in Hline.
  destruct Hline as (before & after & Hpage). exists before, after.
  rewrite Hpage. reflexivity.
Qed.

End MoreFacts.

(** X5: the answer to a vote and what the vote does to the store do not
    depend on the notifier: not on its settings, not on what was posted
    before, not on what the network does with the post. *)
Theorem vote_ignores_notifier (env1 env2 : gmap string string) (p : string)
    (w1 w2 : World) :
  APP_VERSION env1 = APP_VERSION env2 →
  same_store w1 w2 →
  (vote_item env1 p w1).1 = (vote_item env2 p w2).1
  ∧ same_store (vote_item env1 p w1).2 (vote_item env2 p w2).2.
Proof.
  intros Hversion (Hdb & Hlog & Hfaults).
  destruct (redis_faults w1 (length (redis_log w1))) as [f|] eqn:Hup.
  - rewrite (vote_item_fault env1 p w1 f) by done.
    rewrite (vote_item_fault env2 p w2 f) by (by rewrite <-Hlog, <-Hfaults).
    unfold same_store. simpl. by rewrite Hdb, Hlog, Hfaults.
  - rewrite (vote_item_sent env1 p w1) by done.
    rewrite (vote_item_sent env2 p w2) by (by rewrite <-Hlog, <-Hfaults).
    rewrite Hdb, Hversion.
    destruct (Redis.incr p (redis_db w2)) as [[e|c] db'];
      unfold same_store; simpl; by rewrite Hlog, Hfaults.
Qed.

(** ** The further statements on concrete worlds *)

Lemma failed_vote_sends_nothing_witness :
  vote_item Scenario.notifying "apple" Cases.at_limit
  = (Return (mkResponse (JsonError "increment or decrement would overflow") 500),
     (vote_item Scenario.notifying "apple" Cases.at_limit).2)
  ∧ status_code (mkResponse (JsonError "increment or decrement would overflow") 500) ≠ 200
  ∧ (∃ error, mkResponse (JsonError "increment or decrement would overflow") 500
              = mkResponse (JsonError error) 500)
  ∧ http_log (vote_item Scenario.notifying "apple" Cases.at_limit).2
    = http_log Cases.at_limit.
Proof.
  assert (vote_item Scenario.notifying "apple" Cases.at_limit
          = (Return (mkResponse (JsonError "increment or decrement would overflow") 500),
             (vote_item Scenario.notifying "apple" Cases.at_limit).2)) as Hrun.
  { apply injective_projections; [vm_compute; reflexivity|reflexivity]. }
  assert (status_code (mkResponse (JsonError "increment or decrement would overflow") 500)
          ≠ 200) as Hfail by discriminate.
  split; [exact Hrun|]. split; [exact Hfail|].
  exact (failed_vote_sends_nothing Scenario.notifying "apple" Cases.at_limit _ _ Hrun Hfail).
Defined.

Lemma votes_count_up_witness :
  valid_product_name "apple" = true
  ∧ Redis.integer_at (redis_db Scenario.offline_net) "apple" = inr 41
  ∧ 41 + Z.of_nat 3 ≤ Redis.LLONG_MAX
  ∧ redis_reachable Scenario.offline_net 3
  ∧ (serve Scenario.notifying (replicate 3 ("/vote/" +:+ "apple")) Scenario.offline_net).1
    = (λ c, Return (mkResponse (JsonVote "success" c (APP_VERSION Scenario.notifying)) 200))
        <$> seqZ (41 + 1) (Z.of_nat 3)
  ∧ Redis.integer_at
      (redis_db (serve Scenario.notifying (replicate 3 ("/vote/" +:+ "apple"))
                   Scenario.offline_net).2) "apple"
    = inr (41 + Z.of_nat 3).
Proof.
  assert (redis_reachable Scenario.offline_net 3) as Hup by (intros i Hi; reflexivity).
  assert (41 + Z.of_nat 3 ≤ Redis.LLONG_MAX) as Hmax by (vm_compute; discriminate).
  split; [reflexivity|]. split; [reflexivity|]. split; [exact Hmax|]. split; [exact Hup|].
  exact (votes_count_up Scenario.notifying 3 "apple" Scenario.offline_net 41
           eq_refl eq_refl Hmax Hup).
Defined.

Lemma counter_changes_only_by_own_vote_witness :
  redis_db (view ∅ (EP_vote_item "apple") Scenario.fresh).2 !! "apple"
  ≠ redis_db Scenario.fresh !! "apple"
  ∧ EP_vote_item "apple" = EP_vote_item "apple".
Proof.
  assert (redis_db (view ∅ (EP_vote_item "apple") Scenario.fresh).2 !! "apple"
          ≠ redis_db Scenario.fresh !! "apple") as Hchanged.
  { vm_compute. discriminate. }
  split; [exact Hchanged|].
  exact (counter_changes_only_by_own_vote ∅ (EP_vote_item "apple") "apple" Scenario.fresh
           Hchanged).
Defined.

(** A vote whose reply is lost may have been counted all the same; the
    keys of the other products are as they were. *)
Example lost_reply_vote :
  (vote_item ∅ "apple" Cases.drops_early).1
  = Return (mkResponse (JsonError "Timeout reading from socket") 500)
  ∧ redis_db (vote_item ∅ "apple" Cases.drops_early).2 = {["apple" := RString "42"]}.
Proof. split; vm_compute; reflexivity. Qed.

Lemma vote_ignores_notifier_witness :
  APP_VERSION Scenario.notifying = APP_VERSION (<["APP_VERSION" := "v2"]> ∅)
  ∧ same_store Scenario.offline_net Cases.online_net
  ∧ (vote_item Scenario.notifying "apple" Scenario.offline_net).1
    = (vote_item (<["APP_VERSION" := "v2"]> ∅) "apple" Cases.online_net).1
  ∧ same_store (vote_item Scenario.notifying "apple" Scenario.offline_net).2
      (vote_item (<["APP_VERSION" := "v2"]> ∅) "apple" Cases.online_net).2.
Proof.
  assert (APP_VERSION Scenario.notifying = APP_VERSION (<["APP_VERSION" := "v2"]> ∅))
    as Hversion by reflexivity.
  assert (same_store Scenario.offline_net Cases.online_net) as Hsame.
  { split; [reflexivity|]. split; reflexivity. }
  split; [exact Hversion|]. split; [exact Hsame|].
  exact (vote_ignores_notifier Scenario.notifying (<["APP_VERSION" := "v2"]> ∅) "apple"
           Scenario.offline_net Cases.online_net Hversion Hsame).
Defined.

Lemma list_after_vote_witness :
  valid_product_name "kiwi" = true
  ∧ utf8_text "kiwi"
  ∧ Redis.integer_at (redis_db Scenario.with_blank) "kiwi" = inr 0
  ∧ 0 < Redis.LLONG_MAX
  ∧ redis_reachable Scenario.with_blank (3 + size (redis_db Scenario.with_blank))
  ∧ (∀ key v, key ≠ "kiwi" → redis_db Scenario.with_blank !! key = Some v →
       utf8_text key ∧ is_Some (listed v))
  ∧ ∃ w', serve ∅ ["/vote/" +:+ "kiwi"; "/list"] Scenario.with_blank
          = ([Return (mkResponse (JsonVote "success" (0 + 1) (APP_VERSION ∅)) 200);
              Return (mkResponse
                        (JsonList (<["kiwi" := 0 + 1]> (omap listed (redis_db Scenario.with_blank)))
                           (APP_VERSION ∅)) 200)],
             w').
Proof.
  assert (utf8_text "kiwi") as Htext by (apply is_utf8_text; reflexivity).
  assert (redis_reachable Scenario.with_blank (3 + size (redis_db Scenario.with_blank)))
    as Hup by (intros i Hi; reflexivity).
  assert (∀ key v, key ≠ "kiwi" → redis_db Scenario.with_blank !! key = Some v →
            utf8_text key ∧ is_Some (listed v)) as Hvalues.
  { intros key v _. revert key v. apply readable_store_listed.
    refine (bool_decide_unpack _ _). vm_compute. exact I. }
  split; [reflexivity|]. split; [exact Htext|]. split; [reflexivity|]. split; [reflexivity|].
  split; [exact Hup|]. split; [exact Hvalues|].
  exact (list_after_vote ∅ "kiwi" Scenario.with_blank 0 eq_refl Htext eq_refl eq_refl
           Hup Hvalues).
Defined.

Lemma get_all_rejects_unreadable_witness :
  redis_reachable Cases.with_binary_key (S (size (redis_db Cases.with_binary_key)))
  ∧ (∃ key v, redis_db Cases.with_binary_key !! key = Some v
              ∧ (¬ utf8_text key ∨ listed v = None))
  ∧ ∃ error w', get_all ∅ Cases.with_binary_key
                = (Return (mkResponse (JsonError error) 500), w').
Proof.
  assert (redis_reachable Cases.with_binary_key (S (size (redis_db Cases.with_binary_key))))
    as Hup by (intros i Hi; reflexivity).
  assert (∃ key v, redis_db Cases.with_binary_key !! key = Some v
                   ∧ (¬ utf8_text key ∨ listed v = None)) as Hbad.
  { exists (Str.of_bytes [255%N]), (RString "1"). split; [reflexivity|].
    left. intros [chars Hchars]. vm_compute in Hchars. discriminate Hchars. }
  split; [exact Hup|]. split; [exact Hbad|].
  exact (get_all_rejects_unreadable ∅ Cases.with_binary_key Hup Hbad).
Defined.

(** The server names banana before apple, and the GETs follow in that
    order. *)
Example listing_follows_server_order :
  keys_now Cases.banana_first = ["banana"; "apple"]
  ∧ redis_log (get_all ∅ Cases.banana_first).2 = [KEYS_all; GET "banana"; GET "apple"].
Proof. split; vm_compute; reflexivity. Qed.


Lemma root_page_info_line_witness :
  (∅ : gmap string string) !! "HOSTNAME" = None
  ∧ Str.contains (html_content ∅) (">後端資料庫: localhost | Pod ID: local").
Proof.
  split; [reflexivity|].
  destruct (root_page_info_line ∅) as [_ Hlocal]. exact (Hlocal eq_refl).
Defined.
